(** * dlm4py: complex vectors, the Krylov solver and the flutter root search

    A shallow embedding of [src/dlm4py.py].  Python objects that are
    mutated in place live in explicit state: the externally supplied real
    vectors sit in a store indexed by handles, the solver and analysis
    objects are records threaded through a state-and-exception monad, and
    a Python exception ends a computation while keeping the state reached
    so far.  Floating-point numbers are kept abstract behind the class
    [Scalar], with one exact instance (canonical rationals) and one
    binary64 instance (primitive floats). *)

From Stdlib Require Import ZArith QArith Qcanon Qcabs List String Bool Lia Ring.
From Stdlib Require Import PrimFloat Uint63.
From stdpp Require Import gmap list.

Set Implicit Arguments.
Set Default Proof Using "Type*".

(** ** Python control: exceptions, state, loops *)

Module Py.

(** Modelled from the spec: the error taxonomy of its section 7.  The
    source defines no exception class of its own; the real-vector layer,
    which is outside the repository, is the only place said to raise one
    of these ([DimensionMismatch]). *)
Inductive status := DimensionMismatch | Breakdown | NonConvergence | SingularSystem.

Inductive exn :=
| NameError (name : string)
| UnboundLocalError (name : string)
| AttributeError (attr : string)
| IndexError
| TypeError
| ValueError
| LinAlgError
| Failure (s : status).

Inductive res (A : Type) :=
| Ok (a : A)
| Raise (e : exn).
Arguments Ok {A} a.
Arguments Raise {A} e.

(** A computation over a mutable state [S]: the state survives an
    exception, as the objects of a Python program do. *)
Definition M (S A : Type) : Type := S -> res A * S.

Definition ret {S A} (a : A) : M S A := fun s => (Ok a, s).

Definition raise {S A} (e : exn) : M S A := fun s => (Raise e, s).

Definition bind {S A B} (m : M S A) (k : A -> M S B) : M S B :=
  fun s => match m s with
           | (Ok a, s') => k a s'
           | (Raise e, s') => (Raise e, s')
           end.

Definition get {S} : M S S := fun s => (Ok s, s).

Definition gets {S A} (f : S -> A) : M S A := fun s => (Ok (f s), s).

Definition modify {S} (f : S -> S) : M S unit := fun s => (Ok tt, f s).

(** Run a computation on a component of the state. *)
Definition zoom {S T A} (proj : S -> T) (upd : T -> S -> S) (m : M T A) : M S A :=
  fun s => match m (proj s) with (r, t) => (r, upd t s) end.

(** [o.attr] where the attribute may not have been set / [l[i]]. *)
Definition attr {S A} (name : string) (o : option A) : M S A :=
  match o with Some a => ret a | None => raise (AttributeError name) end.

Definition index {S A} (l : list A) (i : nat) : M S A :=
  match l !! i with Some a => ret a | None => raise IndexError end.

(** The names bound at module level by [dlm4py.py] (its imports and its
    three classes) and the Python 2 builtins. *)
Definition module_names : list string :=
  ["np"; "sys"; "TACS"; "elements"; "constitutive"; "MPI"; "dlm";
   "JDVec"; "GMRES"; "DLM"]%string.

Definition builtin_names : list string :=
  ["abs"; "all"; "any"; "apply"; "basestring"; "bin"; "bool"; "buffer";
   "bytearray"; "bytes"; "callable"; "chr"; "classmethod"; "cmp"; "coerce";
   "compile"; "complex"; "delattr"; "dict"; "dir"; "divmod"; "enumerate";
   "eval"; "execfile"; "file"; "filter"; "float"; "format"; "frozenset";
   "getattr"; "globals"; "hasattr"; "hash"; "help"; "hex"; "id"; "input";
   "int"; "intern"; "isinstance"; "issubclass"; "iter"; "len"; "list";
   "locals"; "long"; "map"; "max"; "memoryview"; "min"; "next"; "object";
   "oct"; "open"; "ord"; "pow"; "property"; "range"; "raw_input"; "reduce";
   "reload"; "repr"; "reversed"; "round"; "set"; "setattr"; "slice";
   "sorted"; "staticmethod"; "str"; "sum"; "super"; "tuple"; "type";
   "unichr"; "unicode"; "vars"; "xrange"; "zip"; "True"; "False"; "None"]%string.

Definition bound_global (n : string) : bool :=
  existsb (String.eqb n) (module_names ++ builtin_names).

(** Use of a name that the enclosing function never assigns, so that it is
    looked up in the module and then among the builtins.  An unbound name
    raises [NameError]; every bound one is a module, a class or a builtin,
    which supports neither subscripting nor arithmetic. *)
Definition global_use {S A} (n : string) : M S A :=
  if bound_global n then raise TypeError else raise (NameError n).

(** [for x in xs: body], the body saying whether it ran into [break];
    [L] holds the local variables the body reassigns. *)
Inductive ctl := Next | Break.

Fixpoint for_each {S X L} (xs : list X) (body : X -> L -> M S (ctl * L)) (l : L) : M S L :=
  match xs with
  | [] => ret l
  | x :: xs' =>
      bind (body x l) (fun cl =>
        match cl with
        | (Next, l') => for_each xs' body l'
        | (Break, l') => ret l'
        end)
  end.

(** A loop without [break] and without reassigned locals. *)
Fixpoint for_ {S X} (xs : list X) (body : X -> M S unit) : M S unit :=
  match xs with
  | [] => ret tt
  | x :: xs' => bind (body x) (fun _ => for_ xs' body)
  end.

(** [xrange(n)], [xrange(a, b)] and [xrange(n-1, -1, -1)]. *)
Definition xrange (n : nat) : list nat := seq 0 n.
Definition xrange2 (a b : nat) : list nat := seq a (b - a).
Definition xrange_down (n : nat) : list nat := rev (seq 0 n).

(** Three ways of speaking about a computation: it never returns
    normally; every exception it raises satisfies [P]; it leaves the
    component [f] of the state as it found it, whether it returns or
    raises. *)
Definition fails {S A} (m : M S A) : Prop :=
  forall s, exists e s', m s = (Raise e, s').

Definition raises_only {S A} (P : exn -> Prop) (m : M S A) : Prop :=
  forall s e s', m s = (Raise e, s') -> P e.

Definition preserves {S A X} (f : S -> X) (m : M S A) : Prop :=
  forall s, f (snd (m s)) = f s.

(** The exceptions that Python, numpy and the real-vector layer raise;
    [Breakdown], [NonConvergence] and [SingularSystem] are not among
    them. *)
Definition raisable (e : exn) : Prop :=
  match e with
  | Failure DimensionMismatch => True
  | Failure _ => False
  | _ => True
  end.

End Py.

Export Py.

Declare Scope py_scope.
Delimit Scope py_scope with py.
Notation "x <- m ;; k" := (bind m (fun x => k))
  (at level 100, m at next level, right associativity) : py_scope.
Notation "m ;; k" := (bind m (fun _ => k))
  (at level 100, right associativity) : py_scope.
Open Scope py_scope.

(** ** Numbers *)

(** The arithmetic of Python floats, kept abstract. *)
Class Scalar (F : Type) := {
  f0 : F;
  f1 : F;
  fadd : F -> F -> F;
  fsub : F -> F -> F;
  fmul : F -> F -> F;
  fdiv : F -> F -> F;
  fopp : F -> F;
  fsqrt : F -> F;
  fabs : F -> F;
  feqb : F -> F -> bool;
  fltb : F -> F -> bool;
  of_Z : Z -> F
}.

Declare Scope scalar_scope.
Delimit Scope scalar_scope with sc.
Notation "x + y" := (fadd x y) : scalar_scope.
Notation "x - y" := (fsub x y) : scalar_scope.
Notation "x * y" := (fmul x y) : scalar_scope.
Notation "x / y" := (fdiv x y) : scalar_scope.
Notation "- x" := (fopp x) : scalar_scope.

(** A decimal literal: [lit 95 100] is [0.95], [lit 1 1000] is [1e-3]. *)
Definition lit {F} {SF : Scalar F} (n d : Z) : F := (of_Z n / of_Z d)%sc.

(** Exact arithmetic: the operations form a ring and [==] decides
    equality. *)
Class Exact (F : Type) {SF : Scalar F} := {
  exact_ring : ring_theory f0 f1 fadd fmul fsub fopp (@eq F);
  feqb_spec : forall x y : F, feqb x y = true <-> x = y
}.
Arguments Exact F {_}.

(** Python's [complex]. *)
Record complex (F : Type) := mkC { re : F; im : F }.
Arguments mkC {F} re im.
Arguments re {F} c.
Arguments im {F} c.

Module Cx.
Section Ops.
Context {F : Type} {SF : Scalar F}.

(** A float where a complex is expected. *)
Definition of_real (x : F) : complex F := mkC x f0.

(** [1j]. *)
Definition j : complex F := mkC f0 f1.

Definition add (a b : complex F) : complex F :=
  mkC (re a + re b)%sc (im a + im b)%sc.

Definition sub (a b : complex F) : complex F :=
  mkC (re a - re b)%sc (im a - im b)%sc.

Definition neg (a : complex F) : complex F :=
  mkC (- re a)%sc (- im a)%sc.

Definition mul (a b : complex F) : complex F :=
  mkC (re a * re b - im a * im b)%sc (re a * im b + im a * re b)%sc.

(** The quotient by the textbook formula.  Python and numpy scale the
    operands first: their quotient can round differently in binary64 and
    differs for a zero divisor. *)
Definition div (a b : complex F) : complex F :=
  let d := (re b * re b + im b * im b)%sc in
  mkC ((re a * re b + im a * im b) / d)%sc ((im a * re b - re a * im b) / d)%sc.

(** [abs(z)]. *)
Definition abs (a : complex F) : F := fsqrt (re a * re a + im a * im a)%sc.

(** [np.sqrt] on a complex number, principal branch, with the modulus
    taken as [abs] takes it: numpy avoids the overflow of the squares,
    so that its root can be finite in binary64 where this one is not. *)
Definition sqrt (a : complex F) : complex F :=
  let m := abs a in
  let two := (f1 + f1)%sc in
  let x := fsqrt ((m + re a) / two)%sc in
  let y := fsqrt ((m - re a) / two)%sc in
  mkC x (if fltb (im a) f0 then (- y)%sc else y).

End Ops.
End Cx.

(** ** The external real vectors *)

Abbreviation loc := nat (only parsing).
Abbreviation heap F := (gmap nat (list F)) (only parsing).

(** What the provider of real vectors (outside the repository) decides:
    whether its vectors answer to a method named [zero] next to
    [zeroEntries], what enforcing the boundary conditions does to the
    entries, and the entries that [setRand] draws. *)
Class RealVecProvider (F : Type) := {
  rv_has_zero : bool;
  rv_applyBCs : list F -> list F;
  rv_setRand : F -> F -> list F -> list F
}.

Module RealVec.
Section Ops.
Context {F : Type} {SF : Scalar F} {RV : RealVecProvider F}.

(** The entries behind a handle. *)
Definition get (h : heap F) (l : loc) : list F := default [] (h !! l).

(** Modelled from the spec: the real-vector capability of its section 6
    ([copyValues], [axpy], [scale], [dot], [zeroEntries], [setRand],
    [applyBCs]), whose implementation is outside the repository; a size
    mismatch between the vector and its operand fails with
    [DimensionMismatch] (section 4.1). *)
Definition same_size (h : heap F) (a b : loc) : bool :=
  Nat.eqb (length (get h a)) (length (get h b)).

Definition copyValues (self vec : loc) : M (heap F) unit :=
  fun h => if same_size h self vec
           then (Ok tt, <[self := get h vec]> h)
           else (Raise (Failure DimensionMismatch), h).

Definition axpy (self : loc) (alpha : F) (vec : loc) : M (heap F) unit :=
  fun h => if same_size h self vec
           then (Ok tt, <[self := zip_with (fun y x => y + alpha * x)%sc (get h self) (get h vec)]> h)
           else (Raise (Failure DimensionMismatch), h).

Definition scale (self : loc) (alpha : F) : M (heap F) unit :=
  fun h => (Ok tt, <[self := map (fun y => alpha * y)%sc (get h self)]> h).

Definition dot_list (x y : list F) : F :=
  fold_left (fun acc xy => acc + fst xy * snd xy)%sc (combine x y) f0.

Definition dot (self vec : loc) : M (heap F) F :=
  fun h => if same_size h self vec
           then (Ok (dot_list (get h self) (get h vec)), h)
           else (Raise (Failure DimensionMismatch), h).

Definition zeroEntries (self : loc) : M (heap F) unit :=
  fun h => (Ok tt, <[self := map (fun _ => f0) (get h self)]> h).

Definition setRand (self : loc) (lo hi : F) : M (heap F) unit :=
  fun h => (Ok tt, <[self := rv_setRand lo hi (get h self)]> h).

Definition applyBCs (self : loc) : M (heap F) unit :=
  fun h => (Ok tt, <[self := rv_applyBCs (get h self)]> h).

(** [v.zero()]: not a method of the capability above; it exists only if
    the provider adds it, and then clears the entries. *)
Definition zero (self : loc) : M (heap F) unit :=
  if rv_has_zero then zeroEntries self else raise (AttributeError "zero").

End Ops.
End RealVec.

(** ** class JDVec *)

Module JDVec.

(** [self.xr] and [self.xc]; [xc = None] is the vector without imaginary
    part. *)
Record t := mk { xr : loc; xc : option loc }.

Section Methods.
Context {F : Type} {SF : Scalar F} {RV : RealVecProvider F}.

Definition copy (self vec : t) : M (heap F) unit :=
  RealVec.copyValues (xr self) (xr vec) ;;
  match xc vec with
  | Some vc =>
      sc <- attr "copyValues" (xc self) ;;
      RealVec.copyValues sc vc
  | None =>
      sc <- attr "zero" (xc self) ;;
      RealVec.zero sc
  end.

Definition dot (self vec : t) : M (heap F) (complex F) :=
  match xc self, xc vec with
  | None, None =>
      a <- RealVec.dot (xr self) (xr vec) ;;
      ret (Cx.add (Cx.of_real a) (Cx.mul (Cx.of_real f0) Cx.j))
  | None, Some vc =>
      a <- RealVec.dot (xr self) (xr vec) ;;
      c <- RealVec.dot (xr self) vc ;;
      ret (Cx.add (Cx.of_real a) (Cx.mul Cx.j (Cx.of_real c)))
  | Some sc, None =>
      a <- RealVec.dot (xr self) (xr vec) ;;
      d <- RealVec.dot sc (xr vec) ;;
      ret (Cx.sub (Cx.of_real a) (Cx.mul Cx.j (Cx.of_real d)))
  | Some sc, Some vc =>
      a <- RealVec.dot (xr self) (xr vec) ;;
      b <- RealVec.dot sc vc ;;
      c <- RealVec.dot (xr self) vc ;;
      d <- RealVec.dot sc (xr vec) ;;
      ret (Cx.add (Cx.of_real (a + b)%sc) (Cx.mul Cx.j (Cx.of_real (c - d)%sc)))
  end.

(** [alpha.imag != 0.0]. *)
Definition imag_nonzero (alpha : complex F) : bool := negb (feqb (im alpha) f0).

Definition axpy (self : t) (alpha : complex F) (vec : t) : M (heap F) unit :=
  RealVec.axpy (xr self) (re alpha) (xr vec) ;;
  (if imag_nonzero alpha
   then sc <- attr "axpy" (xc self) ;; RealVec.axpy sc (im alpha) (xr vec)
   else ret tt) ;;
  match xc vec with
  | Some vc =>
      sc <- attr "axpy" (xc self) ;;
      RealVec.axpy sc (re alpha) vc ;;
      if imag_nonzero alpha
      then RealVec.axpy (xr self) (- im alpha)%sc vc
      else ret tt
  | None => ret tt
  end.

Definition scale (self : t) (alpha : complex F) : M (heap F) unit :=
  RealVec.scale (xr self) (re alpha) ;;
  match xc self with
  | Some sc => RealVec.scale sc (re alpha)
  | None => ret tt
  end.

Definition zero (self : t) : M (heap F) unit :=
  RealVec.zeroEntries (xr self) ;;
  match xc self with
  | Some sc => RealVec.zeroEntries sc
  | None => ret tt
  end.

End Methods.
End JDVec.

(** ** class GMRES *)

Module GMRES.

(** The operator [self.mat] and the preconditioner [self.pc], supplied by
    the caller: [mat.mult(x, y)] and [pc.apply(x, y)] write into [y]. *)
Class LinearOps (F : Type) := {
  mat_mult : JDVec.t -> JDVec.t -> M (heap F) unit;
  pc_apply : JDVec.t -> JDVec.t -> M (heap F) unit
}.

(** The attributes set by [__init__]. *)
Record obj (F : Type) := mkObj {
  msub : nat;
  H : list (list (complex F));
  res : list (complex F);
  Qsin : list (complex F);
  Qcos : list (complex F);
  W : list JDVec.t;
  Z : list JDVec.t
}.
Arguments mkObj {F} msub H res Qsin Qcos W Z.
Arguments msub {F} o.
Arguments H {F} o.
Arguments res {F} o.
Arguments Qsin {F} o.
Arguments Qcos {F} o.
Arguments W {F} o.
Arguments Z {F} o.

(** The solver object together with the store of real vectors. *)
Record world (F : Type) := mkWorld { self : obj F; store : heap F }.
Arguments mkWorld {F} self store.
Arguments self {F} w.
Arguments store {F} w.

Section Methods.
Context {F : Type} {SF : Scalar F} {RV : RealVecProvider F} {LO : LinearOps F}.

Definition czero : complex F := mkC f0 f0.

(** [GMRES(mat, pc, msub)]: zeroed arrays and empty subspaces. *)
Definition init (m : nat) : obj F :=
  mkObj m (replicate (m + 1) (replicate m czero)) (replicate (m + 1) czero)
        (replicate m czero) (replicate m czero) [] [].

(** A method of a vector object, run on the store. *)
Definition vec {A} (m : M (heap F) A) : M (world F) A :=
  zoom store (fun h w => mkWorld (self w) h) m.

Definition W_at (i : nat) : M (world F) JDVec.t :=
  w <- get ;; index (W (self w)) i.

Definition Z_at (i : nat) : M (world F) JDVec.t :=
  w <- get ;; index (Z (self w)) i.

(** [self.H[i, k]] read and written; numpy checks both indices. *)
Definition getH (i k : nat) : M (world F) (complex F) :=
  w <- get ;; row <- index (H (self w)) i ;; index row k.

Definition setH (i k : nat) (v : complex F) : M (world F) unit :=
  w <- get ;;
  row <- index (H (self w)) i ;;
  _ <- index row k ;;
  modify (fun w => let o := self w in
    mkWorld (mkObj (msub o) (<[i := <[k := v]> row]> (H o)) (res o) (Qsin o) (Qcos o) (W o) (Z o))
            (store w)).

Definition get_res (i : nat) : M (world F) (complex F) :=
  w <- get ;; index (res (self w)) i.

Definition set_res (i : nat) (v : complex F) : M (world F) unit :=
  w <- get ;;
  _ <- index (res (self w)) i ;;
  modify (fun w => let o := self w in
    mkWorld (mkObj (msub o) (H o) (<[i := v]> (res o)) (Qsin o) (Qcos o) (W o) (Z o)) (store w)).

Definition get_Qsin (i : nat) : M (world F) (complex F) :=
  w <- get ;; index (Qsin (self w)) i.

Definition set_Qsin (i : nat) (v : complex F) : M (world F) unit :=
  w <- get ;;
  _ <- index (Qsin (self w)) i ;;
  modify (fun w => let o := self w in
    mkWorld (mkObj (msub o) (H o) (res o) (<[i := v]> (Qsin o)) (Qcos o) (W o) (Z o)) (store w)).

Definition get_Qcos (i : nat) : M (world F) (complex F) :=
  w <- get ;; index (Qcos (self w)) i.

Definition set_Qcos (i : nat) (v : complex F) : M (world F) unit :=
  w <- get ;;
  _ <- index (Qcos (self w)) i ;;
  modify (fun w => let o := self w in
    mkWorld (mkObj (msub o) (H o) (res o) (Qsin o) (<[i := v]> (Qcos o)) (W o) (Z o)) (store w)).

(** Lines 157-159: modified Gram-Schmidt of [W[i+1]] against [W[j]]. *)
Definition orthogonalize (i j : nat) : M (world F) unit :=
  wj <- W_at j ;;
  wi1 <- W_at (i + 1) ;;
  d <- vec (JDVec.dot wj wi1) ;;
  setH j i d ;;
  wi1 <- W_at (i + 1) ;;
  h <- getH j i ;;
  wj <- W_at j ;;
  vec (JDVec.axpy wi1 (Cx.neg h) wj).

(** Lines 167-171: the stored rotation [j] applied to column [i]. *)
Definition rotate (i j : nat) : M (world F) unit :=
  h1 <- getH j i ;;
  h2 <- getH (j + 1) i ;;
  qc <- get_Qcos j ;;
  qs <- get_Qsin j ;;
  setH j i (Cx.add (Cx.mul h1 qc) (Cx.mul h2 qs)) ;;
  qs <- get_Qsin j ;;
  qc <- get_Qcos j ;;
  setH (j + 1) i (Cx.add (Cx.mul (Cx.neg h1) qs) (Cx.mul h2 qc)).

(** Lines 150-190: one pass of the loop over [i].  [H] at line 164 and
    [res] at lines 188-190 are written without [self.]: they are names of
    the module, not attributes of the solver. *)
Definition arnoldi_step (i : nat) : M (world F) unit :=
  wi <- W_at i ;;
  zi <- Z_at i ;;
  vec (pc_apply wi zi) ;;
  zi <- Z_at i ;;
  wi1 <- W_at (i + 1) ;;
  vec (mat_mult zi wi1) ;;
  for_ (xrange (i + 1)) (orthogonalize i) ;;
  wa <- W_at (i + 1) ;;
  wb <- W_at (i + 1) ;;
  d <- vec (JDVec.dot wa wb) ;;
  setH (i + 1) i (Cx.sqrt d) ;;
  wi1 <- W_at (i + 1) ;;
  hg <- global_use "H" ;;
  vec (JDVec.scale wi1 (Cx.div (Cx.of_real f1) hg)) ;;
  for_ (xrange i) (rotate i) ;;
  h1 <- getH i i ;;
  h2 <- getH (i + 1) i ;;
  let a := Cx.abs h1 in
  let sq := Cx.sqrt (Cx.add (Cx.of_real (a * a)%sc) (Cx.mul h2 h2)) in
  set_Qsin i (Cx.div h2 sq) ;;
  set_Qcos i (Cx.div h1 sq) ;;
  qc <- get_Qcos i ;;
  qs <- get_Qsin i ;;
  setH i i (Cx.add (Cx.mul h1 qc) (Cx.mul h2 qs)) ;;
  qs <- get_Qsin i ;;
  qc <- get_Qcos i ;;
  setH (i + 1) i (Cx.add (Cx.mul (Cx.neg h1) qs) (Cx.mul h2 qc)) ;;
  r <- global_use "res" ;;
  qc <- get_Qcos i ;;
  let ri : complex F := Cx.mul r qc in
  (global_use "res" : M (world F) unit) ;;
  qs <- get_Qsin i ;;
  let ri1 : complex F := Cx.mul (Cx.neg r) qs in
  (global_use "res" : M (world F) unit).

(** Lines 193-196: the back substitution, on the module names [res] and
    [niters]. *)
Definition back_substitute : M (world F) unit :=
  n <- global_use "niters" ;;
  for_ (xrange_down n) (fun i =>
    n' <- global_use "niters" ;;
    for_ (xrange2 (i + 1) n') (fun k =>
      ri <- global_use "res" ;;
      h <- getH i k ;;
      rk <- global_use "res" ;;
      let v : complex F := Cx.sub ri (Cx.mul h rk) in
      (global_use "res" : M (world F) unit)) ;;
    ri <- global_use "res" ;;
    h <- getH i i ;;
    let v : complex F := Cx.div ri h in
    (global_use "res" : M (world F) unit)).

(** [solve(self, b, x)]. *)
Definition solve (b x : JDVec.t) : M (world F) nat :=
  w0 <- W_at 0 ;;
  vec (JDVec.copy w0 b) ;;
  wa <- W_at 0 ;;
  wb <- W_at 0 ;;
  d <- vec (JDVec.dot wa wb) ;;
  set_res 0 (Cx.sqrt d) ;;
  w0 <- W_at 0 ;;
  r0 <- get_res 0 ;;
  vec (JDVec.scale w0 (Cx.div (Cx.of_real f1) r0)) ;;
  m <- gets (fun w => msub (self w)) ;;
  for_ (xrange m) arnoldi_step ;;
  back_substitute ;;
  vec (JDVec.zero x) ;;
  n <- global_use "niters" ;;
  for_ (xrange n) (fun i =>
    r <- global_use "res" ;;
    zi <- Z_at i ;;
    vec (JDVec.axpy x r zi)) ;;
  global_use "niters".

(** The exception [e] is one that the preconditioner or the operator
    raises on some arguments. *)
Definition raised_by_operator (e : exn) : Prop :=
  exists (u v : JDVec.t) (h h' : heap F),
    pc_apply u v h = (Raise e, h') \/ mat_mult u v h = (Raise e, h').

(** The exceptions that can end [solve]: those of Python, numpy and the
    vector layer, and whatever the preconditioner and the operator
    raise. *)
Definition solve_raises (e : exn) : Prop := raisable e \/ raised_by_operator e.

End Methods.
End GMRES.

(** ** numpy arrays *)

(** A two-dimensional array is the list of its rows.  [.T] is written out
    where numpy computes with the transposed array and left out where the
    array is only handed to a Fortran routine of the [dlm] module. *)
Module Np.
Section Arrays.
Context {F : Type} {SF : Scalar F}.

Definition zeros (n m : nat) : list (list F) := replicate n (replicate m f0).

Definition czeros (n m : nat) : list (list (complex F)) :=
  replicate n (replicate m (mkC f0 f0)).

(** Broadcasting of a value onto [n] places, and of two operands onto
    each other. *)
Definition bcast {A} (n : nat) (l : list A) : option (list A) :=
  if Nat.eqb (length l) n then Some l
  else match l with
       | [a] => Some (replicate n a)
       | _ => None
       end.

Definition bzip {A B C} (f : A -> B -> option C) (a : list A) (b : list B) : option (list C) :=
  if Nat.eqb (length a) (length b) then mapM (fun ab => f (fst ab) (snd ab)) (zip a b)
  else match a, b with
       | [x], _ => mapM (f x) b
       | _, [y] => mapM (fun x => f x y) a
       | _, _ => None
       end.

Definition bzip2 {A B C} (f : A -> B -> C) (a : list (list A)) (b : list (list B)) : option (list (list C)) :=
  bzip (bzip (fun x y => Some (f x y))) a b.

(** The right-hand side of [a[:, :] = b] for [a] of shape [(n, m)]. *)
Definition bcast2 {A} (n m : nat) (b : list (list A)) : option (list (list A)) :=
  match mapM (bcast m) b with
  | Some rows => bcast n rows
  | None => None
  end.

(** A shape error of numpy. *)
Definition shaped {S A} (o : option A) : M S A :=
  match o with Some a => ret a | None => raise ValueError end.

(** [a[i, k]] and [a[i, k] = v]. *)
Definition get2 {S A} (a : list (list A)) (i k : nat) : M S A :=
  row <- index a i ;; index row k.

Definition set2 {S A} (a : list (list A)) (i k : nat) (v : A) : M S (list (list A)) :=
  row <- index a i ;;
  _ <- index row k ;;
  ret (<[i := <[k := v]> row]> a).

(** [a[:, k]], [a[:, k] = v] and [a[:, k] += v]. *)
Definition get_col {S A} (a : list (list A)) (k : nat) : M S (list A) :=
  for_each a (fun row acc => x <- index row k ;; ret (Next, acc ++ [x])) [].

Definition update_col {S A B} (f : A -> B -> A) (a : list (list A)) (k : nat) (v : list B) : M S (list (list A)) :=
  v' <- shaped (bcast (length a) v) ;;
  for_each (zip a v') (fun rx acc =>
    x <- index (fst rx) k ;;
    ret (Next, acc ++ [<[k := f x (snd rx)]> (fst rx)])) [].

Definition set_col {S A} (a : list (list A)) (k : nat) (v : list A) : M S (list (list A)) :=
  update_col (fun _ x => x) a k v.

(** [a[idx]] for an array of indices [idx]. *)
Definition take_indices {S A} (a : list A) (idx : list nat) : M S (list A) :=
  for_each idx (fun i acc => x <- index a i ;; ret (Next, acc ++ [x])) [].

(** [a[-1]]. *)
Definition last_of {S A} (a : list A) : M S A :=
  match last a with Some x => ret x | None => raise IndexError end.

(** [a.T] for an array with [n] columns. *)
Definition transpose {A} (n : nat) (a : list (list A)) : list (list A) :=
  map (fun k => omap (fun row => row !! k) a) (seq 0 n).

(** [np.sum(a)] and [np.sum(a, axis=0)] for [n] columns. *)
Definition sum (a : list F) : F := fold_left fadd a f0.

Definition col_sums (n : nat) (a : list (list F)) : list F :=
  fold_left (zip_with fadd) a (replicate n f0).

(** [x**n] for a float and a natural exponent. *)
Fixpoint fpow (x : F) (n : nat) : F :=
  match n with
  | O => f1
  | S n' => (x * fpow x n')%sc
  end.

(** [np.dot(modes.T, f)]: real [modes], complex [f]. *)
Definition dot_T {S} (modes : list (list F)) (f : list (complex F)) : M S (list (complex F)) :=
  if Nat.eqb (length modes) (length f)
  then ret (map (fun col =>
              fold_left (fun acc mf => Cx.add acc (Cx.mul (Cx.of_real (fst mf)) (snd mf)))
                        (zip col f) (mkC f0 f0))
            (transpose (length (default [] (head modes))) modes))
  else raise ValueError.

(** [disp.reshape(n, 3)]. *)
Fixpoint reshape3 (n : nat) (a : list F) : list (list F) :=
  match n with
  | O => []
  | S n' => take 3 a :: reshape3 n' (drop 3 a)
  end.

End Arrays.
End Np.

(** ** class DLM *)

Module DLM.

Inductive matkind := STIFFNESS_MATRIX | MASS_MATRIX.

(** The collaborators outside the repository: numpy's dense solvers, the
    Fortran routines of the module [dlm], the finite-element package
    (matrices of type [SMat], factorisations of type [PcT], its Krylov
    solver) and the load and displacement transfer.  A routine that writes
    into an argument returns the new contents of that argument. *)
Class Externals (F : Type) := {
  SMat : Type;
  PcT : Type;
  np_linalg_solve : list (list (complex F)) -> list (list (complex F)) ->
                    option (list (list (complex F)));
  np_linalg_det : list (list (complex F)) -> complex F;
  np_argsort : list F -> list nat;
  dlm_computeinfluencematrix :
    list (list (complex F)) -> F -> F -> F ->
    list (list F) -> list (list F) -> list (list F) -> list F ->
    Z -> bool -> F -> list (list (complex F));
  dlm_addcpforces :
    F -> list (complex F) -> list (list F) -> list (list Z) ->
    list (list (complex F)) -> list (list (complex F));
  dlm_getmodebcs :
    list (list F) -> list (list F) -> list (list Z) -> list F -> list F ->
    list F * list F;
  dlm_tridiageigvecs :
    list F -> list F -> list (list F) -> list F * list F * list (list F) * Z;
  tacs_createVec : list F;
  tacs_mat_zeroEntries : SMat -> SMat;
  tacs_assembleMatType : Z -> SMat -> F -> matkind -> SMat;
  tacs_mat_copyValues : SMat -> SMat -> SMat;
  tacs_mat_axpy : SMat -> F -> SMat -> SMat;
  tacs_mat_mult : SMat -> list F -> list F;
  tacs_pc_factor : PcT -> SMat -> PcT;
  tacs_gmres_solve : SMat -> PcT -> list F -> list F -> list F;
  transfer_getDisplacements : list F -> list F -> list F
}.

(** What the analysis prints, and (last) a record of each call of
    [computeFlutterDet] with its velocity and its [p]. *)
Inductive event (F : Type) :=
| EvTridiagError
| EvOmega (omega : list F)
| EvIterHeader
| EvIter (k : nat) (absdet : F) (p : complex F)
| EvP (p : complex F)
| EvSweepHeader
| EvSweep (i : nat) (U : F) (p : complex F)
| EvDetCall (U : F) (p : complex F).
Arguments EvTridiagError {F}.
Arguments EvIterHeader {F}.
Arguments EvSweepHeader {F}.

Section Model.
Context {F : Type} {SF : Scalar F} {RV : RealVecProvider F} {EX : Externals F}.

(** The aerodynamic mesh; [None] until the first [addMeshSegment]. *)
Record mesh_t := mkMesh {
  npanels : nat;
  nnodes : nat;
  Xi : option (list (list F));
  Xo : option (list (list F));
  Xr : option (list (list F));
  dXav : option (list F);
  X : option (list (list F));
  conn : option (list (list Z))
}.

(** The attributes that [initStructure] creates. *)
Record structure_t := mkStructure {
  load_case : Z;
  mat : SMat;
  kmat : SMat;
  mmat : SMat;
  pc : PcT;
  transfer : list F
}.

(** The reduced model, each attribute absent until [setUpSubspace]
    assigns it.  [Qm] holds handles of structural vectors. *)
Record reduced_t := mkReduced {
  Kr : option (list (list F));
  Qm : option (list loc);
  Qm_modes : option (list (list F));
  Qm_vwash : option (list (list F));
  Qm_dwash : option (list (list F));
  omega : option (list F)
}.

Record state := mkState {
  is_symmetric : Z;
  use_steady_kernel : bool;
  epstol : F;
  mesh : mesh_t;
  Dtrans : option (list (list (complex F)));
  temp : option loc;
  Vm : option (list loc);
  structure : option structure_t;
  reduced : reduced_t;
  vecs : heap F;
  out : list (event F)
}.

Definition set_Dtrans (v : option (list (list (complex F)))) (s : state) : state :=
  mkState (is_symmetric s) (use_steady_kernel s) (epstol s) (mesh s) v (temp s) (Vm s)
          (structure s) (reduced s) (vecs s) (out s).

Definition set_temp (v : option loc) (s : state) : state :=
  mkState (is_symmetric s) (use_steady_kernel s) (epstol s) (mesh s) (Dtrans s) v (Vm s)
          (structure s) (reduced s) (vecs s) (out s).

Definition set_Vm (v : option (list loc)) (s : state) : state :=
  mkState (is_symmetric s) (use_steady_kernel s) (epstol s) (mesh s) (Dtrans s) (temp s) v
          (structure s) (reduced s) (vecs s) (out s).

Definition set_structure (v : option structure_t) (s : state) : state :=
  mkState (is_symmetric s) (use_steady_kernel s) (epstol s) (mesh s) (Dtrans s) (temp s) (Vm s)
          v (reduced s) (vecs s) (out s).

Definition set_reduced (v : reduced_t) (s : state) : state :=
  mkState (is_symmetric s) (use_steady_kernel s) (epstol s) (mesh s) (Dtrans s) (temp s) (Vm s)
          (structure s) v (vecs s) (out s).

Definition set_vecs (v : heap F) (s : state) : state :=
  mkState (is_symmetric s) (use_steady_kernel s) (epstol s) (mesh s) (Dtrans s) (temp s) (Vm s)
          (structure s) (reduced s) v (out s).

Definition set_out (v : list (event F)) (s : state) : state :=
  mkState (is_symmetric s) (use_steady_kernel s) (epstol s) (mesh s) (Dtrans s) (temp s) (Vm s)
          (structure s) (reduced s) (vecs s) v.

Definition set_Kr (v : option (list (list F))) (r : reduced_t) : reduced_t :=
  mkReduced v (Qm r) (Qm_modes r) (Qm_vwash r) (Qm_dwash r) (omega r).

Definition set_Qm (v : option (list loc)) (r : reduced_t) : reduced_t :=
  mkReduced (Kr r) v (Qm_modes r) (Qm_vwash r) (Qm_dwash r) (omega r).

Definition set_Qm_modes (v : option (list (list F))) (r : reduced_t) : reduced_t :=
  mkReduced (Kr r) (Qm r) v (Qm_vwash r) (Qm_dwash r) (omega r).

Definition set_Qm_vwash (v : option (list (list F))) (r : reduced_t) : reduced_t :=
  mkReduced (Kr r) (Qm r) (Qm_modes r) v (Qm_dwash r) (omega r).

Definition set_Qm_dwash (v : option (list (list F))) (r : reduced_t) : reduced_t :=
  mkReduced (Kr r) (Qm r) (Qm_modes r) (Qm_vwash r) v (omega r).

Definition set_omega (v : option (list F)) (r : reduced_t) : reduced_t :=
  mkReduced (Kr r) (Qm r) (Qm_modes r) (Qm_vwash r) (Qm_dwash r) v.

(** The part of the analysis object that holds the reduced model: its six
    attributes and the structural vectors that [Qm] refers to. *)
Definition model (s : state) : reduced_t * heap F := (reduced s, vecs s).

(** [print]. *)
Definition emit (e : event F) : M state unit :=
  modify (fun s => set_out (out s ++ [e]) s).

(** The velocities at which the flutter determinant has been asked for. *)
Definition det_velocities (o : list (event F)) : list F :=
  omap (fun e => match e with EvDetCall U _ => Some U | _ => None end) o.

(** The calls of the flutter determinant that have been made: the
    velocity and the [p] of each, in order. *)
Definition det_calls (o : list (event F)) : list (F * complex F) :=
  omap (fun e => match e with EvDetCall U p => Some (U, p) | _ => None end) o.

(** A method of a structural vector, run on the store. *)
Definition svec {A} (m : M (heap F) A) : M state A := zoom vecs set_vecs m.

(** Reading an attribute of the reduced model or of the mesh. *)
Definition reduced_attr {A} (name : string) (f : reduced_t -> option A) : M state A :=
  s <- get ;; attr name (f (reduced s)).

Definition mesh_T {A} (f : mesh_t -> option A) : M state A :=
  s <- get ;; attr "T" (f (mesh s)).

(** [computeInfluenceMatrix(self, U, omega_aero, Mach)]. *)
Definition computeInfluenceMatrix (U omega_aero Mach : F) : M state unit :=
  s <- get ;;
  let n := npanels (mesh s) in
  (match Dtrans s with
   | None => modify (set_Dtrans (Some (Np.czeros n n)))
   | Some d => if Nat.ltb (length d) n
               then modify (set_Dtrans (Some (Np.czeros n n)))
               else ret tt
   end) ;;
  s <- get ;;
  d <- attr "T" (Dtrans s) ;;
  xi <- mesh_T Xi ;;
  xo <- mesh_T Xo ;;
  xr <- mesh_T Xr ;;
  dx <- (match dXav (mesh s) with Some a => ret a | None => raise TypeError end) ;;
  modify (set_Dtrans (Some (dlm_computeinfluencematrix d omega_aero U Mach xi xo xr dx
                              (is_symmetric s) (use_steady_kernel s) (epstol s)))).

(** [computeFlutterMat(self, U, p, qinf, Mach, nvecs, Kr, vwash, dwash, modes)]. *)
Definition computeFlutterMat (U : F) (p : complex F) (qinf Mach : F) (nvecs : nat)
    (Kr vwash dwash modes : list (list F)) : M state (list (list (complex F))) :=
  K <- Np.shaped (Np.bcast2 nvecs nvecs Kr) ;;
  let F0 := map (map Cx.of_real) K in
  F1 <- for_each (xrange nvecs) (fun i Fm =>
          v <- Np.get2 Fm i i ;;
          Fm' <- Np.set2 Fm i i (Cx.add v (Cx.mul p p)) ;;
          ret (Next, Fm')) F0 ;;
  computeInfluenceMatrix U (im p) Mach ;;
  let pv := map (map (fun v => Cx.div (Cx.mul p (Cx.of_real v)) (Cx.of_real U))) vwash in
  wash <- Np.shaped (Np.bzip2 (fun a d => Cx.add a (Cx.of_real d)) pv dwash) ;;
  s <- get ;;
  d <- attr "T" (Dtrans s) ;;
  Cp <- (match np_linalg_solve (Np.transpose (length d) d) wash with
         | Some c => ret c
         | None => raise LinAlgError
         end) ;;
  let forces := Np.czeros (nnodes (mesh s)) 3 in
  Ff <- for_each (xrange nvecs) (fun i Ff =>
          let forces := map (map (fun _ => mkC f0 f0)) (snd Ff) in
          col <- Np.get_col Cp i ;;
          x <- mesh_T X ;;
          c <- mesh_T conn ;;
          let forces := dlm_addcpforces qinf col x c forces in
          g <- Np.dot_T modes (concat forces) ;;
          Fm' <- Np.update_col Cx.add (fst Ff) i g ;;
          ret (Next, (Fm', forces))) (F1, forces) ;;
  ret (fst Ff).

(** [computeFlutterDet(self, U, p, qinf, Mach, nvecs, Kr, vwash, dwash, modes, omega)]. *)
Definition computeFlutterDet (U : F) (p : complex F) (qinf Mach : F) (nvecs : nat)
    (Kr vwash dwash modes : list (list F)) (omega : F) : M state (complex F) :=
  emit (EvDetCall U p) ;;
  Fm <- computeFlutterMat U p qinf Mach nvecs Kr vwash dwash modes ;;
  ret (Cx.div (np_linalg_det Fm) (Cx.of_real (Np.fpow omega (2 * nvecs)))).

(** The arguments that every call of [computeFlutterDet] in the two
    methods below passes after [p]: [qinf, Mach, len(self.Qm), self.Kr,
    self.Qm_vwash, self.Qm_dwash, self.Qm_modes, self.omega[kmode]]. *)
Definition flutter_det (U : F) (p : complex F) (qinf Mach : F) (kmode : nat) : M state (complex F) :=
  q <- reduced_attr "Qm" Qm ;;
  kr <- reduced_attr "Kr" Kr ;;
  vw <- reduced_attr "Qm_vwash" Qm_vwash ;;
  dw <- reduced_attr "Qm_dwash" Qm_dwash ;;
  mo <- reduced_attr "Qm_modes" Qm_modes ;;
  om <- reduced_attr "omega" omega ;;
  ok <- index om kmode ;;
  computeFlutterDet U p qinf Mach (length q) kr vw dw mo ok.

(** The local variables of the secant iteration. *)
Record secant := mkSecant {
  p1 : complex F;
  p2 : complex F;
  det1 : complex F;
  det2 : complex F
}.

(** [pnew = (p2*det1 - p1*det2)/(det1 - det2)]. *)
Definition secant_next (l : secant) : complex F :=
  Cx.div (Cx.sub (Cx.mul (p2 l) (det1 l)) (Cx.mul (p1 l) (det2 l)))
         (Cx.sub (det1 l) (det2 l)).

(** [1.0*z]. *)
Definition times_one (z : complex F) : complex F := Cx.mul (Cx.of_real f1) z.

(** [computeFlutterMode(self, rho, Uval, Mach, kmode, pinit, max_iters, tol)]. *)
Definition computeFlutterMode (rho Uval Mach : F) (kmode : nat) (pinit : option (complex F))
    (max_iters : nat) (tol : F) : M state (complex F) :=
  seeds <- (match pinit with
    | None =>
        om <- reduced_attr "omega" omega ;;
        ok <- index om kmode ;;
        let a := Cx.add (Cx.of_real (- f1)%sc) (Cx.mul Cx.j (Cx.of_real ok)) in
        om <- reduced_attr "omega" omega ;;
        ok <- index om kmode ;;
        ret (a, Cx.add (Cx.of_real (- f1)%sc)
                       (Cx.mul Cx.j (Cx.of_real (lit 1 1000 + ok)%sc)))
    | Some pi =>
        ret (times_one pi,
             Cx.add (times_one pi) (Cx.mul Cx.j (Cx.of_real (lit 1 1000))))
    end) ;;
  let qinf := (lit 1 2 * rho * (Uval * Uval))%sc in
  d1 <- flutter_det Uval (fst seeds) qinf Mach kmode ;;
  d2 <- flutter_det Uval (snd seeds) qinf Mach kmode ;;
  let max_iters := 50 in
  let det0 := times_one d1 in
  l <- for_each (xrange max_iters) (fun k l =>
         let pnew := secant_next l in
         let a := times_one (p2 l) in
         let da := times_one (det2 l) in
         let b := times_one pnew in
         db <- flutter_det Uval b qinf Mach kmode ;;
         (if Nat.eqb k 0 then emit EvIterHeader else ret tt) ;;
         emit (EvIter k (Cx.abs db) b) ;;
         emit (EvP b) ;;
         ret (if fltb (Cx.abs db) (tol * Cx.abs det0)%sc then Break else Next,
              mkSecant a b da db))
       (mkSecant (fst seeds) (snd seeds) d1 d2) ;;
  ret (p2 l).

(** Lines 942-960 of [velocitySweep]: the two seeds of sample [i] of mode
    [kmode], from the table [pvals] of the roots found so far. *)
Definition sweep_seed (kmode i : nat) (pvals : list (list (complex F))) : M state (complex F * complex F) :=
  let eps : F := lit 1 1000 in
  let offset := Cx.add (Cx.of_real eps) (Cx.mul Cx.j (Cx.of_real eps)) in
  a <- (match i with
        | 0 =>
            om <- reduced_attr "omega" omega ;;
            ok <- index om kmode ;;
            ret (Cx.add (Cx.of_real (- lit 1 10)%sc) (Cx.mul Cx.j (Cx.of_real ok)))
        | 1 =>
            q <- Np.get2 pvals kmode 0 ;;
            ret (times_one q)
        | 2 =>
            q1 <- Np.get2 pvals kmode (i - 1) ;;
            q2 <- Np.get2 pvals kmode (i - 2) ;;
            ret (Cx.sub (Cx.mul (Cx.of_real (of_Z 2)) q1) q2)
        | _ =>
            q1 <- Np.get2 pvals kmode (i - 1) ;;
            q2 <- Np.get2 pvals kmode (i - 2) ;;
            q3 <- Np.get2 pvals kmode (i - 3) ;;
            ret (Cx.add (Cx.sub (Cx.mul (Cx.of_real (of_Z 3)) q1)
                                (Cx.mul (Cx.of_real (of_Z 3)) q2)) q3)
        end) ;;
  ret (a, Cx.add a offset).

(** Lines 975-998 of [velocitySweep]: the secant iteration of one
    sample.  The determinant at line 985 is asked for at [U[i]], [U] being
    a name of the module, where lines 963 and 967 pass [Uvals[i]]. *)
Definition sweep_iterate (qinf Mach : F) (kmode : nat) (det0 : complex F)
    (l : secant) : M state secant :=
  let max_iters := 50 in
  for_each (xrange max_iters) (fun k l =>
    let pnew := secant_next l in
    let a := times_one (p2 l) in
    let da := times_one (det2 l) in
    let b := times_one pnew in
    ug <- global_use "U" ;;
    db <- flutter_det ug b qinf Mach kmode ;;
    (if Nat.eqb k 0 then emit EvIterHeader else ret tt) ;;
    emit (EvIter k (Cx.abs db) b) ;;
    ret (if fltb (Cx.abs db) (lit 1 1000000 * Cx.abs det0)%sc then Break else Next,
         mkSecant a b da db))
  l.

(** Lines 938-1001: one velocity sample. *)
Definition sweep_sample (rho : F) (Uvals : list F) (Mach : F) (kmode i : nat)
    (pvals : list (list (complex F))) : M state (list (list (complex F))) :=
  u <- index Uvals i ;;
  let qinf := (lit 1 2 * rho * (u * u))%sc in
  seeds <- sweep_seed kmode i pvals ;;
  u <- index Uvals i ;;
  d1 <- flutter_det u (fst seeds) qinf Mach kmode ;;
  u <- index Uvals i ;;
  d2 <- flutter_det u (snd seeds) qinf Mach kmode ;;
  let det0 := times_one d1 in
  l <- sweep_iterate qinf Mach kmode det0 (mkSecant (fst seeds) (snd seeds) d1 d2) ;;
  Np.set2 pvals kmode i (p2 l).

(** [velocitySweep(self, rho, Uvals, Mach, nmodes)]. *)
Definition velocitySweep (rho : F) (Uvals : list F) (Mach : F) (nmodes : nat) : M state (list (list (complex F))) :=
  let nvals := length Uvals in
  for_each (xrange nmodes) (fun kmode pvals =>
    pvals <- for_each (xrange nvals) (fun i pvals =>
               pvals' <- sweep_sample rho Uvals Mach kmode i pvals ;;
               ret (Next, pvals')) pvals ;;
    emit EvSweepHeader ;;
    i <- (match nvals with
          | O => raise (UnboundLocalError "i")
          | S n => ret n
          end) ;;
    ug <- global_use "U" ;;
    q <- Np.get2 pvals kmode i ;;
    emit (EvSweep i ug q) ;;
    ret (Next, pvals))
  (Np.czeros nmodes nvals).

(** The attributes of [initStructure], absent before it has run. *)
Definition the_structure (name : string) : M state structure_t :=
  s <- get ;; attr name (structure s).

Definition set_mat (v : SMat) (t : structure_t) : structure_t :=
  mkStructure (load_case t) v (kmat t) (mmat t) (pc t) (transfer t).

Definition set_kmat (v : SMat) (t : structure_t) : structure_t :=
  mkStructure (load_case t) (mat t) v (mmat t) (pc t) (transfer t).

Definition set_mmat (v : SMat) (t : structure_t) : structure_t :=
  mkStructure (load_case t) (mat t) (kmat t) v (pc t) (transfer t).

Definition set_pc (v : PcT) (t : structure_t) : structure_t :=
  mkStructure (load_case t) (mat t) (kmat t) (mmat t) v (transfer t).

Definition set_transfer (v : list F) (t : structure_t) : structure_t :=
  mkStructure (load_case t) (mat t) (kmat t) (mmat t) (pc t) v.

Definition modify_structure (name : string) (f : structure_t -> structure_t) : M state unit :=
  t <- the_structure name ;; modify (set_structure (Some (f t))).

(** A handle that no stored vector uses. *)
Definition fresh_loc (h : heap F) : loc :=
  map_fold (fun k _ acc => Nat.max (S k) acc) 0 h.

(** [self.tacs.createVec()]. *)
Definition createVec : M state loc :=
  _ <- the_structure "tacs" ;;
  s <- get ;;
  let l := fresh_loc (vecs s) in
  modify (set_vecs (<[l := tacs_createVec]> (vecs s))) ;;
  ret l.

(** [self.Vm] as a list, [self.Vm[i]] and [self.temp] as a vector. *)
Definition Vm_list : M state (list loc) :=
  s <- get ;;
  match Vm s with Some l => ret l | None => raise TypeError end.

Definition Vm_at (i : nat) : M state loc :=
  l <- Vm_list ;; index l i.

Definition temp_vec : M state loc :=
  s <- get ;;
  match temp s with Some l => ret l | None => raise TypeError end.

(** [self.A.mult(x, self.temp)] for a structural matrix [A]. *)
Definition smat_mult (name : string) (A : structure_t -> SMat) (x : M state loc) : M state unit :=
  t <- the_structure name ;;
  xv <- x ;;
  tmp <- temp_vec ;;
  svec (fun h => (Ok tt, <[tmp := tacs_mat_mult (A t) (RealVec.get h xv)]> h)).

(** [getModeBCs(self, mode)]. *)
Definition getModeBCs (mode : list (list F)) : M state (list F * list F) :=
  s <- get ;;
  let vwash := replicate (npanels (mesh s)) f0 in
  let dwash := replicate (npanels (mesh s)) f0 in
  x <- mesh_T X ;;
  c <- mesh_T conn ;;
  ret (dlm_getmodebcs mode x c vwash dwash).

(** Lines 746-753 of [lanczos]: [V[i+1]] against [V[j]] under the mass
    inner product. *)
Definition lanczos_orthogonalize (Vm : list loc) (i j : nat) (alpha : list F) : M state (ctl * list F) :=
  smat_mult "mmat" mmat (index Vm (i + 1)) ;;
  vj <- index Vm j ;;
  tmp <- temp_vec ;;
  h <- svec (RealVec.dot vj tmp) ;;
  vi1 <- index Vm (i + 1) ;;
  vj <- index Vm j ;;
  svec (RealVec.axpy vi1 (- h)%sc vj) ;;
  ret (Next, if Nat.eqb i j then <[i := h]> alpha else alpha).

(** [lanczos(self, Vm, sigma)]. *)
Definition lanczos (Vm : list loc) (sigma : F) : M state (list F * list F) :=
  (if Nat.eqb (length Vm) 0 then raise ValueError else ret tt) ;;
  let n := length Vm - 1 in
  modify_structure "mat" (fun t => set_mat (tacs_mat_copyValues (mat t) (kmat t)) t) ;;
  modify_structure "mat" (fun t => set_mat (tacs_mat_axpy (mat t) (- sigma)%sc (mmat t)) t) ;;
  modify_structure "pc" (fun t => set_pc (tacs_pc_factor (pc t) (mat t)) t) ;;
  v0 <- index Vm 0 ;;
  svec (RealVec.applyBCs v0) ;;
  smat_mult "mmat" mmat (index Vm 0) ;;
  v0 <- index Vm 0 ;;
  tmp <- temp_vec ;;
  d <- svec (RealVec.dot v0 tmp) ;;
  let b0 := fsqrt d in
  v0 <- index Vm 0 ;;
  svec (RealVec.scale v0 (f1 / b0)%sc) ;;
  for_each (xrange n) (fun i ab =>
    smat_mult "mmat" mmat (index Vm i) ;;
    t <- the_structure "gmres" ;;
    tmp <- temp_vec ;;
    vi1 <- index Vm (i + 1) ;;
    svec (fun h => (Ok tt, <[vi1 := tacs_gmres_solve (mat t) (pc t) (RealVec.get h tmp)
                                                     (RealVec.get h vi1)]> h)) ;;
    vi1 <- index Vm (i + 1) ;;
    svec (RealVec.applyBCs vi1) ;;
    alpha <- for_each (xrange_down (i + 1)) (lanczos_orthogonalize Vm i) (fst ab) ;;
    smat_mult "mmat" mmat (index Vm (i + 1)) ;;
    vi1 <- index Vm (i + 1) ;;
    tmp <- temp_vec ;;
    d <- svec (RealVec.dot vi1 tmp) ;;
    let beta := <[i := fsqrt d]> (snd ab) in
    vi1 <- index Vm (i + 1) ;;
    bi <- index beta i ;;
    svec (RealVec.scale vi1 (f1 / bi)%sc) ;;
    ret (Next, (alpha, beta)))
  (replicate n f0, replicate n f0).

(** The local variables of [setUpSubspace] that outlive its restart loop;
    [omega] and [convrg] are unbound until the loop body has run once. *)
Record restart_locals := mkLocals {
  l_sigma : F;
  l_eigvecs : list (list F);
  l_omega : option (list F);
  l_convrg : option bool
}.

(** A local variable that may not have been assigned. *)
Definition local {A} (name : string) (o : option A) : M state A :=
  match o with Some a => ret a | None => raise (UnboundLocalError name) end.

(** Lines 599-636: one pass of the restart loop. *)
Definition restart (m r : nat) (tol : F) (i : nat) (l : restart_locals) : M state (ctl * restart_locals) :=
  vm <- Vm_list ;;
  ab <- lanczos vm (l_sigma l) ;;
  b0 <- Np.last_of (snd ab) ;;
  let res := dlm_tridiageigvecs (fst ab) (snd ab) (l_eigvecs l) in
  let alpha := fst (fst (fst res)) in
  let eigvecs := snd (fst res) in
  let info := snd res in
  (if Z.eqb info 0 then ret tt else emit EvTridiagError) ;;
  let omega := map (fun a => fsqrt (f1 / a + l_sigma l)%sc) alpha in
  let indices := np_argsort omega in
  omega <- Np.take_indices omega indices ;;
  eigvecs <- Np.take_indices eigvecs indices ;;
  convrg <- for_each (xrange r) (fun j c =>
              row <- index eigvecs j ;;
              e <- Np.last_of row ;;
              ret (Next, if fltb tol (fabs (b0 * e)%sc) then false else c)) true ;;
  if convrg
  then ret (Break, mkLocals (l_sigma l) eigvecs (Some omega) (Some convrg))
  else
    o0 <- index omega 0 ;;
    let sigma := (lit 95 100 * (o0 * o0))%sc in
    let weights := Np.col_sums (m - 1) (take r eigvecs) in
    v0 <- Vm_at 0 ;;
    w0 <- index weights 0 ;;
    svec (RealVec.scale v0 w0) ;;
    for_ (xrange (m - 1)) (fun j =>
      v0 <- Vm_at 0 ;;
      wj <- index weights j ;;
      vj <- Vm_at j ;;
      svec (RealVec.axpy v0 wj vj)) ;;
    v0 <- Vm_at 0 ;;
    svec (RealVec.applyBCs v0) ;;
    ret (Next, mkLocals sigma eigvecs (Some omega) (Some convrg)).

(** Lines 597-636: the restart loop. *)
Definition restart_loop (m r : nat) (sigma tol : F) (max_iters : nat) : M state restart_locals :=
  for_each (xrange max_iters) (restart m r tol)
           (mkLocals sigma (Np.zeros (m - 1) (m - 1)) None None).

(** [self.Kr[i, k] = v] and the three wash arrays, column by column. *)
Definition set_Kr_entry (i k : nat) (v : F) : M state unit :=
  a <- reduced_attr "Kr" Kr ;;
  a' <- Np.set2 a i k v ;;
  modify (fun s => set_reduced (set_Kr (Some a') (reduced s)) s).

Definition set_reduced_col (name : string) (f : reduced_t -> option (list (list F)))
    (upd : option (list (list F)) -> reduced_t -> reduced_t) (k : nat) (v : list F) : M state unit :=
  a <- reduced_attr name f ;;
  a' <- Np.set_col a k v ;;
  modify (fun s => set_reduced (upd (Some a') (reduced s)) s).

(** Lines 638-697: the reduced model built from whatever the restart loop
    left in [eigvecs] and [omega].  Line 670 makes [self.Qm] the list
    [self.Vm] itself; the model stores its value, which is the same list
    until a later call of [setUpSubspace] appends to [self.Vm]. *)
Definition build_basis (m r : nat) (use_modes : bool) (l : restart_locals) : M state unit :=
  (if use_modes
   then
     modify (fun s => set_reduced (set_Qm (Some []) (reduced s)) s) ;;
     for_each (xrange r) (fun i eigvecs =>
       row <- index eigvecs i ;;
       let nrm := fsqrt (Np.sum (map (fun x => x * x)%sc row)) in
       let eigvecs := <[i := map (fun x => x / nrm)%sc row]> eigvecs in
       qr <- createVec ;;
       for_ (xrange (m - 1)) (fun k =>
         e <- Np.get2 eigvecs i k ;;
         vk <- Vm_at k ;;
         svec (RealVec.axpy qr e vk)) ;;
       q <- reduced_attr "Qm" Qm ;;
       modify (fun s => set_reduced (set_Qm (Some (q ++ [qr])) (reduced s)) s) ;;
       ret (Next, eigvecs)) (l_eigvecs l) ;;
     modify (fun s => set_reduced (set_Kr (Some (Np.zeros r r)) (reduced s)) s) ;;
     for_ (xrange r) (fun k =>
       om <- local "omega" (l_omega l) ;;
       ok <- index om k ;;
       set_Kr_entry k k (ok * ok)%sc)
   else
     modify (fun s => set_reduced (set_Kr (Some (Np.zeros m m)) (reduced s)) s) ;;
     for_ (xrange m) (fun i =>
       smat_mult "kmat" kmat (Vm_at i) ;;
       for_ (xrange (i + 1)) (fun k =>
         s <- get ;;
         tmp <- attr "dot" (temp s) ;;
         vk <- Vm_at k ;;
         d <- svec (RealVec.dot tmp vk) ;;
         set_Kr_entry i k d ;;
         a <- reduced_attr "Kr" Kr ;;
         v <- Np.get2 a i k ;;
         set_Kr_entry k i v)) ;;
     vm <- Vm_list ;;
     modify (fun s => set_reduced (set_Qm (Some vm) (reduced s)) s)) ;;
  s <- get ;;
  let nn := nnodes (mesh s) in
  let np := npanels (mesh s) in
  q <- reduced_attr "Qm" Qm ;;
  modify (fun s => set_reduced (set_Qm_modes (Some (Np.zeros (3 * nn) (length q))) (reduced s)) s) ;;
  q <- reduced_attr "Qm" Qm ;;
  modify (fun s => set_reduced (set_Qm_vwash (Some (Np.zeros np (length q))) (reduced s)) s) ;;
  q <- reduced_attr "Qm" Qm ;;
  modify (fun s => set_reduced (set_Qm_dwash (Some (Np.zeros np (length q))) (reduced s)) s) ;;
  q <- reduced_attr "Qm" Qm ;;
  for_each (xrange (length q)) (fun k disp =>
    _ <- the_structure "transfer" ;;
    q <- reduced_attr "Qm" Qm ;;
    qk <- index q k ;;
    s <- get ;;
    modify_structure "transfer" (set_transfer (RealVec.get (vecs s) qk)) ;;
    t <- the_structure "transfer" ;;
    let disp := transfer_getDisplacements (transfer t) disp in
    vd <- getModeBCs (Np.reshape3 nn disp) ;;
    set_reduced_col "Qm_vwash" Qm_vwash set_Qm_vwash k (fst vd) ;;
    set_reduced_col "Qm_dwash" Qm_dwash set_Qm_dwash k (snd vd) ;;
    set_reduced_col "Qm_modes" Qm_modes set_Qm_modes k disp ;;
    ret (Next, disp)) (replicate (3 * nn) f0) ;;
  om <- local "omega" (l_omega l) ;;
  modify (fun s => set_reduced (set_omega (Some (take r om)) (reduced s)) s) ;;
  om <- reduced_attr "omega" omega ;;
  emit (EvOmega (take r om)).

(** Lines 569-597: the matrices assembled, the work vectors allocated
    and [Vm[0]] drawn at random. *)
Definition allocate_subspace (m : nat) : M state unit :=
  modify_structure "kmat" (fun t => set_kmat (tacs_mat_zeroEntries (kmat t)) t) ;;
  modify_structure "mmat" (fun t => set_mmat (tacs_mat_zeroEntries (mmat t)) t) ;;
  modify_structure "tacs" (fun t =>
    set_kmat (tacs_assembleMatType (load_case t) (kmat t) f1 STIFFNESS_MATRIX) t) ;;
  modify_structure "tacs" (fun t =>
    set_mmat (tacs_assembleMatType (load_case t) (mmat t) f1 MASS_MATRIX) t) ;;
  s <- get ;;
  (match temp s with
   | None => l <- createVec ;; modify (set_temp (Some l))
   | Some _ => ret tt
   end) ;;
  s <- get ;;
  (match Vm s with
   | None => modify (set_Vm (Some []))
   | Some _ => ret tt
   end) ;;
  vm <- Vm_list ;;
  (if Nat.ltb (length vm) m
   then for_ (xrange2 (length vm) m) (fun _ =>
          l <- createVec ;;
          vm <- Vm_list ;;
          modify (set_Vm (Some (vm ++ [l]))))
   else ret tt) ;;
  v0 <- Vm_at 0 ;;
  svec (RealVec.setRand v0 (- f1)%sc f1) ;;
  (if Nat.eqb m 0 then raise ValueError else ret tt).

(** [setUpSubspace(self, m, r, sigma, tol, max_iters, use_modes)]. *)
Definition setUpSubspace (m r : nat) (sigma tol : F) (max_iters : nat) (use_modes : bool) : M state unit :=
  allocate_subspace m ;;
  l <- restart_loop m r sigma tol max_iters ;;
  build_basis m r use_modes l.

End Model.
End DLM.

(** ** Two arithmetics and a small set of collaborators

    The exact instance computes with canonical rationals (the square root
    is rounded down to nine decimals and is exact on squares of such
    fractions); the binary64 instance computes with the machine's
    floating-point numbers, as Python does. *)

Module Arith.

Definition Qc_sqrt (q : Qc) : Qc :=
  let n := Qnum q in
  let d := Zpos (Qden q) in
  Q2Qc (Qmake (Z.sqrt (n * d * 10 ^ 18)) (Z.to_pos (d * 10 ^ 9))).

Definition Qc_ltb (x y : Qc) : bool :=
  match Qccompare x y with Lt => true | _ => false end.

#[global] Instance Qc_scalar : Scalar Qc := {|
  f0 := 0%Qc;
  f1 := 1%Qc;
  fadd := Qcplus;
  fsub := Qcminus;
  fmul := Qcmult;
  fdiv := Qcdiv;
  fopp := Qcopp;
  fsqrt := Qc_sqrt;
  fabs := Qcabs;
  feqb := Qc_eq_bool;
  fltb := Qc_ltb;
  of_Z := fun z => Q2Qc (inject_Z z)
|}.

(** Exact for the literals of the source (below [2^53]). *)
Definition float_of_Z (z : Z) : float :=
  match z with
  | Z0 => PrimFloat.zero
  | Zpos _ => PrimFloat.of_uint63 (Uint63.of_Z z)
  | Zneg p => PrimFloat.opp (PrimFloat.of_uint63 (Uint63.of_Z (Zpos p)))
  end.

#[global] Instance float_scalar : Scalar float := {|
  f0 := PrimFloat.zero;
  f1 := PrimFloat.one;
  fadd := PrimFloat.add;
  fsub := PrimFloat.sub;
  fmul := PrimFloat.mul;
  fdiv := PrimFloat.div;
  fopp := PrimFloat.opp;
  fsqrt := PrimFloat.sqrt;
  fabs := PrimFloat.abs;
  feqb := PrimFloat.eqb;
  fltb := PrimFloat.ltb;
  of_Z := float_of_Z
|}.

(** A provider of real vectors without constrained entries, whose
    [setRand] draws [1, 1/2, 1/3, ...]; [z] says whether its vectors have
    a method [zero]. *)
Definition provider {F} {SF : Scalar F} (z : bool) : RealVecProvider F := {|
  rv_has_zero := z;
  rv_applyBCs := fun v => v;
  rv_setRand := fun _ _ v => imap (fun i _ => (f1 / of_Z (Z.of_nat (S i)))%sc) v
|}.

(** The operator [diag(d)] and the identity preconditioner, on vectors
    that carry both parts. *)
Definition diag_mult {F} {SF : Scalar F} (d : list F) (x y : JDVec.t) : M (heap F) unit :=
  fun h =>
    let put (src dst : loc) (h' : heap F) : heap F :=
      <[dst := zip_with fmul d (RealVec.get h src)]> h' in
    match JDVec.xc x, JDVec.xc y with
    | Some xc, Some yc => (Ok tt, put xc yc (put (JDVec.xr x) (JDVec.xr y) h))
    | _, _ => (Raise TypeError, h)
    end.

Definition diag_ops {F} {SF : Scalar F} (d : list F) : GMRES.LinearOps F := {|
  GMRES.mat_mult := diag_mult d;
  GMRES.pc_apply := fun x y h =>
    match JDVec.xc x, JDVec.xc y with
    | Some xc, Some yc =>
        (Ok tt, <[yc := RealVec.get h xc]> (<[JDVec.xr y := RealVec.get h (JDVec.xr x)]> h))
    | _, _ => (Raise TypeError, h)
    end
|}.

(** The determinant by expansion along the first row. *)
Fixpoint det_fuel {F} {SF : Scalar F} (n : nat) (a : list (list (complex F))) : complex F :=
  match n, a with
  | S n', row :: rest =>
      fold_left (fun acc kx =>
          let minor := map (fun r => take (fst kx) r ++ drop (S (fst kx)) r) rest in
          let term := Cx.mul (snd kx) (det_fuel n' minor) in
          if Nat.even (fst kx) then Cx.add acc term else Cx.sub acc term)
        (imap (fun k x => (k, x)) row) (mkC f0 f0)
  | _, _ => mkC f1 f0
  end.

(** A stable insertion sort on indexed values, for [np.argsort]. *)
Fixpoint insert_sorted {F} {SF : Scalar F} (ix : nat * F) (l : list (nat * F)) : list (nat * F) :=
  match l with
  | [] => [ix]
  | jy :: l' => if fltb (snd jy) (snd ix) then jy :: insert_sorted ix l' else ix :: l
  end.

(** Collaborators for a structure with diagonal stiffness [k] and mass
    [m], a tridiagonal eigensolver for subspaces of dimension one, a
    dense solver for one panel, and an aerodynamic kernel that returns
    the identity. *)
Definition toy_externals {F} {SF : Scalar F} (k m : list F) : DLM.Externals F := {|
  DLM.SMat := list F;
  DLM.PcT := list F;
  DLM.np_linalg_solve := fun a b =>
    match a with
    | [[x]] => Some (map (map (fun y => Cx.div y x)) b)
    | _ => None
    end;
  DLM.np_linalg_det := fun a => det_fuel (length a) a;
  DLM.np_argsort := fun v => map fst (fold_right insert_sorted [] (imap (fun i x => (i, x)) v));
  DLM.dlm_computeinfluencematrix := fun d _ _ _ _ _ _ _ _ _ _ =>
    imap (fun i row => imap (fun c _ => if Nat.eqb i c then mkC f1 f0 else mkC f0 f0) row) d;
  DLM.dlm_addcpforces := fun qinf cp _ _ forces =>
    map (map (fun f => fold_left (fun acc c => Cx.add acc (Cx.mul (Cx.of_real qinf) c)) cp f)) forces;
  DLM.dlm_getmodebcs := fun mode _ _ vwash dwash =>
    (map (fun _ => Np.sum (concat mode)) vwash, map (fun _ => f1) dwash);
  DLM.dlm_tridiageigvecs := fun alpha beta eigvecs =>
    match alpha with
    | [a] => ([a], beta, [[f1]], 0%Z)
    | _ => (alpha, beta, eigvecs, 1%Z)
    end;
  DLM.tacs_createVec := map (fun _ => f0) k;
  DLM.tacs_mat_zeroEntries := map (fun _ => f0);
  DLM.tacs_assembleMatType := fun _ a s kind =>
    zip_with (fun x y => x + s * y)%sc a
             (match kind with DLM.STIFFNESS_MATRIX => k | DLM.MASS_MATRIX => m end);
  DLM.tacs_mat_copyValues := fun _ src => src;
  DLM.tacs_mat_axpy := fun a s b => zip_with (fun x y => x + s * y)%sc a b;
  DLM.tacs_mat_mult := fun a x => zip_with fmul a x;
  DLM.tacs_pc_factor := fun _ a => a;
  DLM.tacs_gmres_solve := fun _ p b _ => zip_with (fun y d => y / d)%sc b p;
  DLM.transfer_getDisplacements := fun v disp =>
    imap (fun i _ => default f0 (v !! (i mod 3))) disp
|}.

End Arith.

(** ** Concrete objects for the examples *)

Module Ex.
Import Arith.

Definition q (n d : Z) : Qc := Q2Qc (Qmake n (Z.to_pos d)).

(** [self = (real=[1,0], imag=[0,1])] at handles 0 and 1,
    [other = (real=[1,0], imag=[0,-1])] at handles 2 and 3. *)
Definition dot_heap : heap Qc :=
  <[0 := [q 1 1; q 0 1]]> (<[1 := [q 0 1; q 1 1]]>
  (<[2 := [q 1 1; q 0 1]]> (<[3 := [q 0 1; q (-1) 1]]> ∅))).
Definition dot_self : JDVec.t := JDVec.mk 0 (Some 1).
Definition dot_other : JDVec.t := JDVec.mk 2 (Some 3).

(** Two vectors without imaginary part. *)
Definition real_heap : heap Qc := <[0 := [q 1 1]]> (<[1 := [q 2 1]]> ∅).
Definition real_self : JDVec.t := JDVec.mk 0 None.
Definition real_other : JDVec.t := JDVec.mk 1 None.

(** [v = (real=[1,2], imag=[3,4])], [w = (real=[5,6], imag=[7,8])] and
    [alpha = 2 + 3j]. *)
Definition axpy_heap : heap Qc :=
  <[0 := [q 1 1; q 2 1]]> (<[1 := [q 3 1; q 4 1]]>
  (<[2 := [q 5 1; q 6 1]]> (<[3 := [q 7 1; q 8 1]]> ∅))).
Definition axpy_v : JDVec.t := JDVec.mk 0 (Some 1).
Definition axpy_w : JDVec.t := JDVec.mk 2 (Some 3).
Definition axpy_alpha : complex Qc := mkC (q 2 1) (q 3 1).

(** In binary64: [v = (real=[1.0], imag=[0.0])], [w = (real=[1.0])] and
    [alpha = 1e20]. *)
Definition float_heap : heap float :=
  <[0 := [1%float]]> (<[1 := [0%float]]> (<[2 := [1%float]]> ∅)).
Definition float_v : JDVec.t := JDVec.mk 0 (Some 1).
Definition float_w : JDVec.t := JDVec.mk 2 None.
Definition float_alpha : complex float := mkC 1e20%float 0%float.

(** A solver with [msub = 1] whose subspaces the caller has filled:
    [W[0]], [W[1]] at handles 0-3, [Z[0]] at 4-5, [b] at 6-7, [x] at 8-9;
    vectors of two entries, [b = (real=[3,4], imag=[0,0])]. *)
Definition gmres_world (b : list Qc) : GMRES.world Qc :=
  let z := [q 0 1; q 0 1] in
  GMRES.mkWorld
    (GMRES.mkObj 1 (replicate 2 (replicate 1 (mkC (q 0 1) (q 0 1))))
                 (replicate 2 (mkC (q 0 1) (q 0 1)))
                 (replicate 1 (mkC (q 0 1) (q 0 1)))
                 (replicate 1 (mkC (q 0 1) (q 0 1)))
                 [JDVec.mk 0 (Some 1); JDVec.mk 2 (Some 3)]
                 [JDVec.mk 4 (Some 5)])
    (<[0 := z]> (<[1 := z]> (<[2 := z]> (<[3 := z]> (<[4 := z]> (<[5 := z]>
     (<[6 := b]> (<[7 := z]> (<[8 := z]> (<[9 := z]> ∅)))))))))).
Definition gmres_b : JDVec.t := JDVec.mk 6 (Some 7).
Definition gmres_x : JDVec.t := JDVec.mk 8 (Some 9).

(** An analysis object after [addMeshSegment] (one panel, four nodes) and
    [initStructure], for a structure of three degrees of freedom with
    stiffness [diag(1, 4, 9)] and unit mass. *)
Section Toy.
Context {F : Type} {SF : Scalar F}.

Definition toy : DLM.Externals F :=
  toy_externals [of_Z 1; of_Z 4; of_Z 9] [of_Z 1; of_Z 1; of_Z 1].

Definition toy_mesh : DLM.mesh_t (F := F) :=
  let o := of_Z 0 in
  let i := of_Z 1 in
  DLM.mkMesh 1 4 (Some [[o; o; o]]) (Some [[o; i; o]]) (Some [[i; i; o]]) (Some [i])
             (Some [[o; o; o]; [i; o; o]; [o; i; o]; [i; i; o]])
             (Some [[0; 1; 3; 2]]%Z).

Definition toy_state : DLM.state (F := F) (EX := toy) :=
  let o := of_Z 0 in
  DLM.mkState 1 true (lit 1 1000000000000) toy_mesh None None None
    (Some (DLM.mkStructure (EX := toy) 0 [o; o; o] [o; o; o] [o; o; o] [o; o; o] []))
    (DLM.mkReduced None None None None None None) ∅ [].

(** The same object with a reduced model of one mode in place, and a
    table of roots for four velocity samples. *)
Definition reduced_state (w : F) : DLM.state (F := F) (EX := toy) :=
  DLM.set_reduced (EX := toy)
    (DLM.mkReduced (Some [[(w * w)%sc]]) (Some [0]) (Some (replicate 12 [of_Z 1]))
                   (Some [[of_Z 1]]) (Some [[of_Z 1]]) (Some [w]))
    toy_state.

Definition root_row : list (complex F) :=
  [mkC (of_Z 1) (of_Z 2); mkC (of_Z 3) (of_Z 5); mkC (of_Z 7) (of_Z 11);
   mkC (of_Z 0) (of_Z 0)].

Definition roots : list (list (complex F)) := [root_row].

End Toy.

(** The velocities of a sweep, [1.0] and [2.0], the tolerance [1e-12],
    and the binary64 analysis object after
    [setUpSubspace(2, 1, sigma=0.0, tol=1e-12, max_iters=5)]. *)
Definition sweep_U : list float := [1%float; 2%float].

Definition tol12 : float := lit 1 1000000000000.

Definition subspace_run : res unit * DLM.state (F := float) (EX := toy) :=
  DLM.setUpSubspace (RV := provider false) 2 1 0%float tol12 5 false toy_state.

Definition swept_state : DLM.state (F := float) (EX := toy) := snd subspace_run.

End Ex.

(** ** What [axpy] computes when [vec] is stored apart from [self] *)

Module JDVal.
Section Values.
Context {F : Type} {SF : Scalar F}.

Definition lin (a : F) (y x : list F) : list F :=
  zip_with (fun yi xi => yi + a * xi)%sc y x.

(** The new real and imaginary entries of [self] after
    [self.axpy(alpha, vec)], from the old entries [yr], [yi] and the
    entries [wr], [wc] of [vec]. *)
Definition axpy_real (alpha : complex F) (yr wr : list F) (wc : option (list F)) : list F :=
  let y1 := lin (re alpha) yr wr in
  match wc with
  | Some c => if JDVec.imag_nonzero alpha then lin (- im alpha)%sc y1 c else y1
  | None => y1
  end.

Definition axpy_imag (alpha : complex F) (yi wr : list F) (wc : option (list F)) : list F :=
  let y1 := if JDVec.imag_nonzero alpha then lin (im alpha) yi wr else yi in
  match wc with
  | Some c => lin (re alpha) y1 c
  | None => y1
  end.

(** The new entries of [self] after [self.axpy(alpha, vec)] when the two
    parts of [self] are one and the same real vector with the entries
    [y]: the four updates fall on it one after the other. *)
Definition axpy_shared (alpha : complex F) (y wr : list F) (wc : option (list F)) : list F :=
  let y1 := lin (re alpha) y wr in
  let y2 := if JDVec.imag_nonzero alpha then lin (im alpha) y1 wr else y1 in
  match wc with
  | Some c =>
      let y3 := lin (re alpha) y2 c in
      if JDVec.imag_nonzero alpha then lin (- im alpha)%sc y3 c else y3
  | None => y2
  end.

End Values.
End JDVal.

(** ** Reading outcomes *)

Module Obs.

(** Every normal return of [m] satisfies [Q]. *)
Definition returns {S A} (Q : A -> S -> Prop) (m : M S A) : Prop :=
  forall s a s', m s = (Ok a, s') -> Q a s'.

(** Started in a state that satisfies [P], every normal return of [m]
    satisfies [Q]. *)
Definition after {S A} (P : S -> Prop) (m : M S A) (Q : A -> S -> Prop) : Prop :=
  forall s a s', P s -> m s = (Ok a, s') -> Q a s'.

Section Analysis.
Context {F : Type} {EX : DLM.Externals F}.

(** The Lanczos vectors that the object holds, none before the first
    [setUpSubspace]. *)
Definition lanczos_vectors (s : DLM.state) : list loc := default [] (DLM.Vm s).

(** The list [self.Vm] exists and holds [k] vectors. *)
Definition holds (k : nat) (v : option (list loc)) : Prop :=
  exists vm, v = Some vm /\ length vm = k.

(** What the Lanczos phase of [setUpSubspace] has no business with. *)
Definition quiet (s : DLM.state) := (DLM.mesh s, DLM.Vm s, DLM.reduced s).

(** The sizes that the reduced model must agree on: the mesh, the
    Lanczos vectors, the row lengths of [Kr] and of the three mode
    arrays, and the lengths of [Qm] and [omega]; [None] for an attribute
    that is not set. *)
Definition row_lengths {A} (a : list (list A)) : list nat := map length a.

Record shape_t := mkShape {
  sh_mesh : DLM.mesh_t (F := F);
  sh_Vm : option (list loc);
  sh_Kr : option (list nat);
  sh_Qm : option nat;
  sh_modes : option (list nat);
  sh_vwash : option (list nat);
  sh_dwash : option (list nat);
  sh_omega : option nat
}.

Definition shapes (s : DLM.state) : shape_t :=
  let rd := DLM.reduced s in
  mkShape (DLM.mesh s) (DLM.Vm s)
          (option_map row_lengths (DLM.Kr rd))
          (option_map (@length loc) (DLM.Qm rd))
          (option_map row_lengths (DLM.Qm_modes rd))
          (option_map row_lengths (DLM.Qm_vwash rd))
          (option_map row_lengths (DLM.Qm_dwash rd))
          (option_map (@length F) (DLM.omega rd)).

(** [m] asks for the flutter determinant with the arguments [cs], in
    that order, when it returns, and with the first few of them when it
    raises. *)
Definition records {A} (cs : list (F * complex F)) (m : M DLM.state A) : Prop :=
  forall s, exists calls,
    DLM.det_calls (DLM.out (snd (m s))) = DLM.det_calls (DLM.out s) ++ calls
    /\ match fst (m s) with
       | Ok _ => calls = cs
       | Raise _ => calls `prefix_of` cs
       end.

End Analysis.

End Obs.

(** * Properties *)

(** ** The monad *)

Section MonadFacts.
Context {S : Type}.

Lemma bind_ok {A B} (m : M S A) (k : A -> M S B) s a s' :
  m s = (Ok a, s') -> bind m k s = k a s'.
Proof. intros E. unfold bind. now rewrite E. Qed.

Lemma bind_raise {A B} (m : M S A) (k : A -> M S B) s e s' :
  m s = (Raise e, s') -> bind m k s = (Raise e, s').
Proof. intros E. unfold bind. now rewrite E. Qed.

Lemma fails_raise {A} e : fails (raise e : M S A).
Proof. intros s. now exists e, s. Qed.

Lemma fails_global_use {A} n : fails (global_use n : M S A).
Proof.
  intros s. unfold global_use. destruct (bound_global n).
  - now exists TypeError, s.
  - now exists (NameError n), s.
Qed.

Lemma fails_bind_l {A B} (m : M S A) (k : A -> M S B) :
  fails m -> fails (bind m k).
Proof.
  intros Hm s. destruct (Hm s) as (e & s' & E).
  exists e, s'. now apply bind_raise.
Qed.

Lemma fails_bind_r {A B} (m : M S A) (k : A -> M S B) :
  (forall a, fails (k a)) -> fails (bind m k).
Proof.
  intros Hk s. unfold bind. destruct (m s) as [[a | e] s'].
  - apply Hk.
  - now exists e, s'.
Qed.

Lemma fails_for_cons {X} (x : X) xs (body : X -> M S unit) :
  fails (body x) -> fails (for_ (x :: xs) body).
Proof. intros Hb. simpl. now apply fails_bind_l. Qed.

Lemma fails_for_each_cons {X L} (x : X) xs (body : X -> L -> M S (ctl * L)) l :
  fails (body x l) -> fails (for_each (x :: xs) body l).
Proof. intros Hb. simpl. now apply fails_bind_l. Qed.

Section Raises.
Variable P : exn -> Prop.

Lemma ro_ret {A} (a : A) : raises_only P (ret a : M S A).
Proof. intros s e s' E. discriminate E. Qed.

Lemma ro_raise {A} e : P e -> raises_only P (raise e : M S A).
Proof. intros He s e' s' E. injection E as <- _. exact He. Qed.

Lemma ro_bind {A B} (m : M S A) (k : A -> M S B) :
  raises_only P m -> (forall a, raises_only P (k a)) -> raises_only P (bind m k).
Proof.
  intros Hm Hk s e s' E. unfold bind in E.
  destruct (m s) as [[a | e0] s0] eqn:Em.
  - exact (Hk a _ _ _ E).
  - injection E as <- <-. exact (Hm _ _ _ Em).
Qed.

Lemma ro_get : raises_only P (get : M S S).
Proof. intros s e s' E. discriminate E. Qed.

Lemma ro_gets {A} (f : S -> A) : raises_only P (gets f).
Proof. intros s e s' E. discriminate E. Qed.

Lemma ro_modify (f : S -> S) : raises_only P (modify f).
Proof. intros s e s' E. discriminate E. Qed.

Lemma ro_zoom {T A} (proj : S -> T) upd (m : M T A) :
  raises_only P m -> raises_only P (zoom proj upd m).
Proof.
  intros Hm s e s' E. unfold zoom in E.
  destruct (m (proj s)) as [r t] eqn:Em. injection E as -> _.
  exact (Hm _ _ _ Em).
Qed.

Lemma ro_attr {A} n (o : option A) :
  P (AttributeError n) -> raises_only P (attr n o : M S A).
Proof. intros HP. destruct o; [apply ro_ret | now apply ro_raise]. Qed.

Lemma ro_index {A} (l : list A) i :
  P IndexError -> raises_only P (index l i : M S A).
Proof. intros HP. unfold index. destruct (l !! i); [apply ro_ret | now apply ro_raise]. Qed.

Lemma ro_global_use {A} n :
  P TypeError -> P (NameError n) -> raises_only P (global_use n : M S A).
Proof. intros H1 H2. unfold global_use. destruct (bound_global n); now apply ro_raise. Qed.

Lemma ro_for_ {X} (xs : list X) (body : X -> M S unit) :
  (forall x, raises_only P (body x)) -> raises_only P (for_ xs body).
Proof.
  intros Hb. induction xs as [| x xs IH]; simpl.
  - apply ro_ret.
  - apply ro_bind; [apply Hb | intros _; exact IH].
Qed.

Lemma ro_for_each {X L} (xs : list X) (body : X -> L -> M S (ctl * L)) l :
  (forall x l, raises_only P (body x l)) -> raises_only P (for_each xs body l).
Proof.
  intros Hb. revert l. induction xs as [| x xs IH]; intros l; simpl.
  - apply ro_ret.
  - apply ro_bind; [apply Hb |]. intros [[|] l']; [apply IH | apply ro_ret].
Qed.

End Raises.

Lemma ro_weaken {A} (P Q : exn -> Prop) (m : M S A) :
  (forall e, P e -> Q e) -> raises_only P m -> raises_only Q m.
Proof. intros HPQ Hm s e s' E. apply HPQ. exact (Hm _ _ _ E). Qed.

Section Preserves.
Context {X : Type} (f : S -> X).

Lemma pres_ret {A} (a : A) : preserves f (ret a : M S A).
Proof. now intros s. Qed.

Lemma pres_raise {A} e : preserves f (raise e : M S A).
Proof. now intros s. Qed.

Lemma pres_bind {A B} (m : M S A) (k : A -> M S B) :
  preserves f m -> (forall a, preserves f (k a)) -> preserves f (bind m k).
Proof.
  intros Hm Hk s. unfold bind. specialize (Hm s).
  destruct (m s) as [[a | e] s']; simpl in *.
  - now rewrite Hk.
  - exact Hm.
Qed.

Lemma pres_get : preserves f (get : M S S).
Proof. now intros s. Qed.

Lemma pres_modify (g : S -> S) :
  (forall s, f (g s) = f s) -> preserves f (modify g).
Proof. intros Hg s. apply Hg. Qed.

Lemma pres_attr {A} n (o : option A) : preserves f (attr n o : M S A).
Proof. destruct o; [apply pres_ret | apply pres_raise]. Qed.

Lemma pres_index {A} (l : list A) i : preserves f (index l i : M S A).
Proof. unfold index. destruct (l !! i); [apply pres_ret | apply pres_raise]. Qed.

Lemma pres_global_use {A} n : preserves f (global_use n : M S A).
Proof. unfold global_use. destruct (bound_global n); apply pres_raise. Qed.

Lemma pres_for_ {Y} (xs : list Y) (body : Y -> M S unit) :
  (forall x, preserves f (body x)) -> preserves f (for_ xs body).
Proof.
  intros Hb. induction xs as [| x xs IH]; simpl.
  - apply pres_ret.
  - apply pres_bind; [apply Hb | intros _; exact IH].
Qed.

Lemma pres_for_each {Y L} (xs : list Y) (body : Y -> L -> M S (ctl * L)) l :
  (forall x l, preserves f (body x l)) -> preserves f (for_each xs body l).
Proof.
  intros Hb. revert l. induction xs as [| x xs IH]; intros l; simpl.
  - apply pres_ret.
  - apply pres_bind; [apply Hb |]. intros [[|] l']; [apply IH | apply pres_ret].
Qed.

End Preserves.
End MonadFacts.

(** ** Real vectors in the store *)

Section StoreFacts.
Context {F : Type}.

Lemma get_insert_eq (h : heap F) l v : RealVec.get (<[l := v]> h) l = v.
Proof. unfold RealVec.get. now rewrite lookup_insert_eq. Qed.

Lemma get_insert_ne (h : heap F) l l' v :
  l <> l' -> RealVec.get (<[l := v]> h) l' = RealVec.get h l'.
Proof. intros Hne. unfold RealVec.get. now rewrite lookup_insert_ne. Qed.

End StoreFacts.

Ltac heap_simpl :=
  repeat first [ rewrite get_insert_eq
               | rewrite get_insert_ne by congruence ].

Section RealVecFacts.
Context {F : Type} {SF : Scalar F}.

Lemma same_size_true (h : heap F) a b :
  length (RealVec.get h a) = length (RealVec.get h b) -> RealVec.same_size h a b = true.
Proof. intros E. unfold RealVec.same_size. rewrite E. apply Nat.eqb_refl. Qed.

Lemma RealVec_axpy_ok (h : heap F) a alpha b :
  length (RealVec.get h a) = length (RealVec.get h b) ->
  RealVec.axpy a alpha b h
  = (Ok tt, <[a := JDVal.lin alpha (RealVec.get h a) (RealVec.get h b)]> h).
Proof. intros E. unfold RealVec.axpy. now rewrite same_size_true. Qed.

Lemma RealVec_copyValues_ok (h : heap F) a b :
  length (RealVec.get h a) = length (RealVec.get h b) ->
  RealVec.copyValues a b h = (Ok tt, <[a := RealVec.get h b]> h).
Proof. intros E. unfold RealVec.copyValues. now rewrite same_size_true. Qed.

Lemma length_lin a (y x : list F) :
  length y = length x -> length (JDVal.lin a y x) = length y.
Proof. intros E. unfold JDVal.lin. now apply length_zip_with_l_eq. Qed.

Lemma length_axpy_real alpha (yr wr : list F) wc :
  length wr = length yr ->
  (forall c, wc = Some c -> length c = length yr) ->
  length (JDVal.axpy_real alpha yr wr wc) = length yr.
Proof.
  intros Er Ec. unfold JDVal.axpy_real.
  destruct wc as [c |]; [destruct (JDVec.imag_nonzero alpha) |];
    rewrite ?length_lin; auto; rewrite ?length_lin; auto.
  symmetry. now apply Ec.
Qed.

Lemma length_axpy_imag alpha (yi wr : list F) wc :
  length wr = length yi ->
  (forall c, wc = Some c -> length c = length yi) ->
  length (JDVal.axpy_imag alpha yi wr wc) = length yi.
Proof.
  intros Er Ec. unfold JDVal.axpy_imag.
  destruct wc as [c |]; destruct (JDVec.imag_nonzero alpha);
    rewrite ?length_lin; auto; rewrite ?length_lin; auto;
    symmetry; now apply Ec.
Qed.

(** [axpy] on the store agrees with [axpy] on values when [vec] shares
    no real vector with [self] and the sizes match. *)
Lemma axpy_sep (v w : JDVec.t) (alpha : complex F) (h : heap F) vi :
  JDVec.xc v = Some vi ->
  JDVec.xr v <> vi ->
  JDVec.xr w <> JDVec.xr v ->
  JDVec.xr w <> vi ->
  (forall c, JDVec.xc w = Some c -> c <> JDVec.xr v /\ c <> vi) ->
  length (RealVec.get h (JDVec.xr w)) = length (RealVec.get h (JDVec.xr v)) ->
  length (RealVec.get h vi) = length (RealVec.get h (JDVec.xr v)) ->
  (forall c, JDVec.xc w = Some c ->
             length (RealVec.get h c) = length (RealVec.get h (JDVec.xr v))) ->
  exists h',
    JDVec.axpy v alpha w h = (Ok tt, h')
    /\ RealVec.get h' (JDVec.xr v)
       = JDVal.axpy_real alpha (RealVec.get h (JDVec.xr v)) (RealVec.get h (JDVec.xr w))
                         (option_map (RealVec.get h) (JDVec.xc w))
    /\ RealVec.get h' vi
       = JDVal.axpy_imag alpha (RealVec.get h vi) (RealVec.get h (JDVec.xr w))
                         (option_map (RealVec.get h) (JDVec.xc w))
    /\ (forall l, l <> JDVec.xr v -> l <> vi -> RealVec.get h' l = RealVec.get h l).
Proof.
  destruct v as [vr vc], w as [wr wc]; simpl.
  intros -> Hri Hwr Hwi Hc Lw Li Lc.
  unfold JDVec.axpy, JDVal.axpy_real, JDVal.axpy_imag; simpl.
  erewrite bind_ok by (apply RealVec_axpy_ok; congruence).
  destruct (JDVec.imag_nonzero alpha) eqn:Enz.
  - erewrite bind_ok.
    2:{ erewrite bind_ok by reflexivity.
        apply RealVec_axpy_ok. heap_simpl. congruence. }
    destruct wc as [c |]; simpl.
    + destruct (Hc c eq_refl) as [Hcr Hci]. specialize (Lc c eq_refl).
      erewrite bind_ok by reflexivity.
      erewrite bind_ok.
      2:{ apply RealVec_axpy_ok. heap_simpl. rewrite length_lin; congruence. }
      eexists. split.
      { apply RealVec_axpy_ok. heap_simpl. rewrite length_lin; congruence. }
      repeat split; intros; heap_simpl; reflexivity.
    + eexists. split; [reflexivity |].
      repeat split; intros; heap_simpl; reflexivity.
  - erewrite bind_ok by reflexivity.
    destruct wc as [c |]; simpl.
    + destruct (Hc c eq_refl) as [Hcr Hci]. specialize (Lc c eq_refl).
      erewrite bind_ok by reflexivity.
      erewrite bind_ok.
      2:{ apply RealVec_axpy_ok. heap_simpl. congruence. }
      eexists. split; [reflexivity |].
      repeat split; intros; heap_simpl; reflexivity.
    + eexists. split; [reflexivity |].
      repeat split; intros; heap_simpl; reflexivity.
Qed.

Lemma length_axpy_shared alpha (y wr : list F) wc :
  length wr = length y ->
  (forall c, wc = Some c -> length c = length y) ->
  length (JDVal.axpy_shared alpha y wr wc) = length y.
Proof.
  intros Er Ec. unfold JDVal.axpy_shared.
  destruct wc as [c |]; destruct (JDVec.imag_nonzero alpha);
    repeat (rewrite length_lin; try congruence);
    try reflexivity; rewrite ?length_lin; try congruence;
    try (symmetry; now apply Ec).
Qed.

(** The same when the two parts of [self] are one real vector. *)
Lemma axpy_shared_store (v w : JDVec.t) (alpha : complex F) (h : heap F) :
  JDVec.xc v = Some (JDVec.xr v) ->
  JDVec.xr w <> JDVec.xr v ->
  (forall c, JDVec.xc w = Some c -> c <> JDVec.xr v) ->
  length (RealVec.get h (JDVec.xr w)) = length (RealVec.get h (JDVec.xr v)) ->
  (forall c, JDVec.xc w = Some c ->
             length (RealVec.get h c) = length (RealVec.get h (JDVec.xr v))) ->
  exists h',
    JDVec.axpy v alpha w h = (Ok tt, h')
    /\ RealVec.get h' (JDVec.xr v)
       = JDVal.axpy_shared alpha (RealVec.get h (JDVec.xr v)) (RealVec.get h (JDVec.xr w))
                           (option_map (RealVec.get h) (JDVec.xc w))
    /\ (forall l, l <> JDVec.xr v -> RealVec.get h' l = RealVec.get h l).
Proof.
  destruct v as [vr vc], w as [wr wc]; simpl.
  intros -> Hwr Hc Lw Lc.
  unfold JDVec.axpy, JDVal.axpy_shared; simpl.
  erewrite bind_ok by (apply RealVec_axpy_ok; congruence).
  destruct (JDVec.imag_nonzero alpha) eqn:Enz.
  - erewrite bind_ok.
    2:{ erewrite bind_ok by reflexivity.
        apply RealVec_axpy_ok. heap_simpl. repeat rewrite length_lin; congruence. }
    destruct wc as [c |]; simpl.
    + pose proof (Hc c eq_refl) as Hcr. specialize (Lc c eq_refl).
      erewrite bind_ok by reflexivity.
      erewrite bind_ok.
      2:{ apply RealVec_axpy_ok. heap_simpl. repeat rewrite length_lin; congruence. }
      eexists. split.
      { apply RealVec_axpy_ok. heap_simpl. repeat rewrite length_lin; congruence. }
      split; intros; heap_simpl; reflexivity.
    + eexists. split; [reflexivity |].
      split; intros; heap_simpl; reflexivity.
  - erewrite bind_ok by reflexivity.
    destruct wc as [c |]; simpl.
    + pose proof (Hc c eq_refl) as Hcr. specialize (Lc c eq_refl).
      erewrite bind_ok by reflexivity.
      erewrite bind_ok.
      2:{ apply RealVec_axpy_ok. heap_simpl. repeat rewrite length_lin; congruence. }
      eexists. split; [reflexivity |].
      split; intros; heap_simpl; reflexivity.
    + eexists. split; [reflexivity |].
      split; intros; heap_simpl; reflexivity.
Qed.

End RealVecFacts.

(** ** Exact arithmetic *)

#[global] Instance Qc_exact : Exact Qc.
Proof.
  split.
  - exact Qcrt.
  - intros x y. split.
    + apply Qc_eq_bool_correct.
    + intros ->. unfold feqb; simpl. unfold Qc_eq_bool.
      destruct (Qcanon.Qc_eq_dec y y) as [_ | n]; [reflexivity | now destruct n].
Qed.

Section ExactFacts.
Context {F : Type} {SF : Scalar F} {EF : Exact F}.

Add Ring Fring : exact_ring.

Lemma feqb_false (x y : F) : feqb x y = false <-> x <> y.
Proof.
  pose proof (feqb_spec x y) as Hs. destruct (feqb x y); split; intros E.
  - discriminate.
  - exfalso. apply E. now apply Hs.
  - intros Exy. apply Hs in Exy. discriminate.
  - reflexivity.
Qed.

Lemma imag_nonzero_neg (alpha : complex F) :
  JDVec.imag_nonzero (Cx.neg alpha) = JDVec.imag_nonzero alpha.
Proof.
  unfold JDVec.imag_nonzero; simpl. f_equal.
  destruct (feqb (im alpha) f0) eqn:E.
  - apply feqb_spec in E. apply feqb_spec. rewrite E. ring.
  - apply feqb_false in E. apply feqb_false. intros E'. apply E.
    transitivity (- - im alpha)%sc; [ring | rewrite E'; ring].
Qed.

Lemma lin_cancel (a : F) (x y : list F) :
  length y = length x -> JDVal.lin (- a)%sc (JDVal.lin a y x) x = y.
Proof.
  revert x. induction y as [| y0 y IH]; intros [| x0 x]; simpl; try discriminate.
  - reflexivity.
  - intros [= E]. unfold JDVal.lin in *. simpl. f_equal; [ring | now apply IH].
Qed.

Lemma lin_swap (a b : F) (x1 x2 y : list F) :
  JDVal.lin a (JDVal.lin b y x2) x1 = JDVal.lin b (JDVal.lin a y x1) x2.
Proof.
  revert x1 x2. induction y as [| y0 y IH]; intros [| u x1] [| v x2]; simpl; try reflexivity.
  unfold JDVal.lin in *. simpl. f_equal; [ring | apply IH].
Qed.

Lemma axpy_real_cancel (alpha : complex F) (yr wr : list F) wc :
  length wr = length yr ->
  (forall c, wc = Some c -> length c = length yr) ->
  JDVal.axpy_real (Cx.neg alpha) (JDVal.axpy_real alpha yr wr wc) wr wc = yr.
Proof.
  intros Er Ec. unfold JDVal.axpy_real. rewrite imag_nonzero_neg.
  destruct wc as [c |]; [destruct (JDVec.imag_nonzero alpha) |]; simpl.
  - specialize (Ec c eq_refl).
    rewrite (lin_swap (- re alpha)%sc).
    rewrite (lin_cancel (re alpha)) by congruence.
    apply lin_cancel. congruence.
  - apply lin_cancel. congruence.
  - apply lin_cancel. congruence.
Qed.

Lemma axpy_imag_cancel (alpha : complex F) (yi wr : list F) wc :
  length wr = length yi ->
  (forall c, wc = Some c -> length c = length yi) ->
  JDVal.axpy_imag (Cx.neg alpha) (JDVal.axpy_imag alpha yi wr wc) wr wc = yi.
Proof.
  intros Er Ec. unfold JDVal.axpy_imag. rewrite imag_nonzero_neg.
  destruct wc as [c |]; destruct (JDVec.imag_nonzero alpha); simpl.
  - specialize (Ec c eq_refl).
    rewrite (lin_swap (- im alpha)%sc).
    rewrite (lin_cancel (im alpha)) by congruence.
    apply lin_cancel. congruence.
  - specialize (Ec c eq_refl). apply lin_cancel. congruence.
  - apply lin_cancel. congruence.
  - reflexivity.
Qed.

Lemma lin_chain2 (a b : F) (y x : list F) :
  length x = length y ->
  JDVal.lin (- b)%sc (JDVal.lin (- a)%sc (JDVal.lin b (JDVal.lin a y x) x) x) x = y.
Proof.
  revert x. induction y as [| y0 y IH]; intros [| x0 x]; simpl; try discriminate.
  - reflexivity.
  - intros [= E]. unfold JDVal.lin in *. simpl. f_equal; [ring | now apply IH].
Qed.

Lemma lin_chain2c (a : F) (y x c : list F) :
  length x = length y -> length c = length y ->
  JDVal.lin (- a)%sc (JDVal.lin (- a)%sc (JDVal.lin a (JDVal.lin a y x) c) x) c = y.
Proof.
  revert x c. induction y as [| y0 y IH]; intros [| x0 x] [| c0 c]; simpl; try discriminate.
  - reflexivity.
  - intros [= E] [= E']. unfold JDVal.lin in *. simpl. f_equal; [ring | now apply IH].
Qed.

Lemma lin_chain4 (a b : F) (y x c : list F) :
  length x = length y -> length c = length y ->
  JDVal.lin (- - b)%sc
    (JDVal.lin (- a)%sc
       (JDVal.lin (- b)%sc
          (JDVal.lin (- a)%sc
             (JDVal.lin (- b)%sc (JDVal.lin a (JDVal.lin b (JDVal.lin a y x) x) c) c)
             x) x) c) c
  = y.
Proof.
  revert x c. induction y as [| y0 y IH]; intros [| x0 x] [| c0 c]; simpl; try discriminate.
  - reflexivity.
  - intros [= E] [= E']. unfold JDVal.lin in *. simpl. f_equal; [ring | now apply IH].
Qed.

Lemma axpy_shared_cancel (alpha : complex F) (y wr : list F) wc :
  length wr = length y ->
  (forall c, wc = Some c -> length c = length y) ->
  JDVal.axpy_shared (Cx.neg alpha) (JDVal.axpy_shared alpha y wr wc) wr wc = y.
Proof.
  intros Er Ec. unfold JDVal.axpy_shared. rewrite imag_nonzero_neg.
  destruct wc as [c |]; [specialize (Ec c eq_refl) |];
    destruct (JDVec.imag_nonzero alpha); cbv zeta; simpl re; simpl im.
  - now apply lin_chain4.
  - now apply lin_chain2c.
  - now apply lin_chain2.
  - now apply lin_cancel.
Qed.

End ExactFacts.

(** ** class JDVec *)

Section JDVecFacts.
Context {F : Type} {SF : Scalar F}.

(** C10, as amended.  [v.scale(alpha)] never raises and does what it
    does for the scalar [alpha.real + 0j]: the imaginary part of [alpha]
    plays no role.  It multiplies the real vector of [v] by [alpha.real]
    and then, if there is one, the imaginary vector by [alpha.real];
    every other vector of the store is left alone.  When the two parts
    are distinct real vectors each ends up multiplied by [alpha.real]
    once; when they are one and the same real vector, that vector ends up
    multiplied twice. *)
Theorem scale_uses_real_part_of_alpha (v : JDVec.t) (alpha : complex F) (h : heap F) :
  exists h',
    JDVec.scale v alpha h = (Ok tt, h')
    /\ JDVec.scale v (mkC (re alpha) f0) h = (Ok tt, h')
    /\ (JDVec.xc v <> Some (JDVec.xr v) ->
          RealVec.get h' (JDVec.xr v)
          = map (fun y => re alpha * y)%sc (RealVec.get h (JDVec.xr v))
          /\ forall vi, JDVec.xc v = Some vi ->
               RealVec.get h' vi = map (fun y => re alpha * y)%sc (RealVec.get h vi))
    /\ (JDVec.xc v = Some (JDVec.xr v) ->
          RealVec.get h' (JDVec.xr v)
          = map (fun y => re alpha * (re alpha * y))%sc (RealVec.get h (JDVec.xr v)))
    /\ (forall l, l <> JDVec.xr v -> JDVec.xc v <> Some l ->
          RealVec.get h' l = RealVec.get h l).
Proof.
  destruct v as [vr [vi |]]; simpl.
  - eexists. split; [reflexivity |]. split; [reflexivity |]. simpl.
    split; [| split].
    + intros Hne. assert (vr <> vi) by congruence.
      split; [now heap_simpl |]. intros ? [= <-]. now heap_simpl.
    + intros [= <-]. heap_simpl. now rewrite map_map.
    + intros l Hl Hl'. assert (vi <> l) by congruence. now heap_simpl.
  - eexists. split; [reflexivity |]. split; [reflexivity |]. simpl.
    split; [| split].
    + intros _. split; [now heap_simpl |]. intros ? [=].
    + intros [=].
    + intros l Hl _. now heap_simpl.
Qed.

Context {RV : RealVecProvider F}.

(** C6.  [self.copy(vec)] for a [self] without imaginary slot never
    returns: when [vec] has no imaginary part either and the sizes agree,
    the real entries are copied and then [self.xc.zero()] raises
    [AttributeError], where the claim asks for a no-op. *)
Theorem copy_without_imag_slot_raises (self vec : JDVec.t) (h : heap F) :
  JDVec.xc self = None ->
  (exists e h', JDVec.copy self vec h = (Raise e, h'))
  /\ (JDVec.xc vec = None ->
      length (RealVec.get h (JDVec.xr self)) = length (RealVec.get h (JDVec.xr vec)) ->
      JDVec.copy self vec h
      = (Raise (AttributeError "zero"),
         <[JDVec.xr self := RealVec.get h (JDVec.xr vec)]> h)).
Proof.
  intros Hs. unfold JDVec.copy. rewrite Hs. split.
  - unfold bind. destruct (RealVec.copyValues _ _ h) as [[[] | e] h1]; [| eauto].
    destruct (JDVec.xc vec); simpl; eauto.
  - intros Hv Hl. rewrite Hv.
    erewrite bind_ok by (now apply RealVec_copyValues_ok).
    reflexivity.
Qed.

End JDVecFacts.

Lemma copy_without_imag_slot_raises_witness :
  JDVec.copy (RV := Arith.provider true) Ex.real_self Ex.real_other Ex.real_heap
  = (Raise (AttributeError "zero"), <[0 := RealVec.get Ex.real_heap 1]> Ex.real_heap).
Proof.
  apply (copy_without_imag_slot_raises (RV := Arith.provider true)
           Ex.real_self Ex.real_other Ex.real_heap); reflexivity.
Defined.

(** C10, the claim as stated, fails for a vector whose two parts are one
    real vector: with the entries [1, 2] at handle 0 and
    [alpha = 2 + 3j], [scale] leaves [4, 8], where multiplying by
    [alpha.real] gives [2, 4]. *)
Lemma scale_shared_parts_scaled_twice :
  exists h',
    JDVec.scale (JDVec.mk 0 (Some 0)) Ex.axpy_alpha Ex.axpy_heap = (Ok tt, h')
    /\ map this (RealVec.get Ex.axpy_heap 0) = [1 # 1; 2 # 1]%Q
    /\ map this (map (fun y => re Ex.axpy_alpha * y)%sc (RealVec.get Ex.axpy_heap 0))
       = [2 # 1; 4 # 1]%Q
    /\ map this (RealVec.get h' 0) = [4 # 1; 8 # 1]%Q.
Proof.
  eexists. split; [reflexivity |]. repeat split; vm_compute; reflexivity.
Qed.

Section JDVecExact.
Context {F : Type} {SF : Scalar F} {EF : Exact F}.

Add Ring Fring' : exact_ring.

(** The Hermitian product of two vectors that carry both parts, as the
    docstring of [dot] gives it. *)
Lemma dot_hermitian (self vec : JDVec.t) (h : heap F) sc vc :
  JDVec.xc self = Some sc ->
  JDVec.xc vec = Some vc ->
  length (RealVec.get h (JDVec.xr self)) = length (RealVec.get h (JDVec.xr vec)) ->
  length (RealVec.get h sc) = length (RealVec.get h (JDVec.xr vec)) ->
  length (RealVec.get h vc) = length (RealVec.get h (JDVec.xr vec)) ->
  JDVec.dot self vec h
  = (Ok (mkC (RealVec.dot_list (RealVec.get h (JDVec.xr self)) (RealVec.get h (JDVec.xr vec))
              + RealVec.dot_list (RealVec.get h sc) (RealVec.get h vc))%sc
             (RealVec.dot_list (RealVec.get h (JDVec.xr self)) (RealVec.get h vc)
              - RealVec.dot_list (RealVec.get h sc) (RealVec.get h (JDVec.xr vec)))%sc), h).
Proof.
  intros Hs Hv L1 L2 L3. unfold JDVec.dot. rewrite Hs, Hv.
  unfold bind, RealVec.dot, ret.
  rewrite !same_size_true by congruence.
  unfold Cx.add, Cx.mul, Cx.of_real, Cx.j; simpl.
  do 2 f_equal. f_equal; ring.
Qed.

(** The round trip when the two parts of [v] are two real vectors. *)
Lemma axpy_roundtrip_two_vectors (v w : JDVec.t) (alpha : complex F) (h : heap F) vi :
  JDVec.xc v = Some vi ->
  JDVec.xr v <> vi ->
  JDVec.xr w <> JDVec.xr v ->
  JDVec.xr w <> vi ->
  (forall c, JDVec.xc w = Some c -> c <> JDVec.xr v /\ c <> vi) ->
  length (RealVec.get h (JDVec.xr w)) = length (RealVec.get h (JDVec.xr v)) ->
  length (RealVec.get h vi) = length (RealVec.get h (JDVec.xr v)) ->
  (forall c, JDVec.xc w = Some c ->
             length (RealVec.get h c) = length (RealVec.get h (JDVec.xr v))) ->
  exists h',
    (JDVec.axpy v alpha w ;; JDVec.axpy v (Cx.neg alpha) w) h = (Ok tt, h')
    /\ forall l, RealVec.get h' l = RealVec.get h l.
Proof.
  intros Hv Hri Hwr Hwi Hc Lw Li Lc.
  destruct (axpy_sep v w alpha h Hv Hri Hwr Hwi Hc Lw Li Lc) as (h1 & E1 & R1 & I1 & Fr1).
  assert (Hw1 : RealVec.get h1 (JDVec.xr w) = RealVec.get h (JDVec.xr w)) by now apply Fr1.
  assert (Hc1 : option_map (RealVec.get h1) (JDVec.xc w)
                = option_map (RealVec.get h) (JDVec.xc w)).
  { destruct (JDVec.xc w) as [c |] eqn:Ec; simpl; [| reflexivity].
    destruct (Hc c eq_refl). f_equal. now apply Fr1. }
  assert (Lc' : forall c, option_map (RealVec.get h) (JDVec.xc w) = Some c ->
                          length c = length (RealVec.get h (JDVec.xr v))).
  { intros c. destruct (JDVec.xc w) as [c0 |]; simpl; intros [= <-]. now apply Lc. }
  assert (Lc'' : forall c, option_map (RealVec.get h) (JDVec.xc w) = Some c ->
                           length c = length (RealVec.get h vi)).
  { intros c Ec. rewrite Li. now apply Lc'. }
  assert (LR : length (RealVec.get h1 (JDVec.xr v)) = length (RealVec.get h (JDVec.xr v))).
  { rewrite R1. now apply length_axpy_real. }
  assert (LI : length (RealVec.get h1 vi) = length (RealVec.get h vi)).
  { rewrite I1. apply length_axpy_imag; [congruence | exact Lc'']. }
  destruct (axpy_sep v w (Cx.neg alpha) h1 Hv Hri Hwr Hwi Hc) as (h2 & E2 & R2 & I2 & Fr2).
  - congruence.
  - congruence.
  - intros c Ec. destruct (Hc c Ec). rewrite Fr1 by assumption. rewrite LR. now apply Lc.
  - exists h2. split.
    + erewrite bind_ok by exact E1. exact E2.
    + intros l.
      destruct (Nat.eq_dec l (JDVec.xr v)) as [-> | Hl1].
      { rewrite R2, R1, Hw1, Hc1. now apply axpy_real_cancel. }
      destruct (Nat.eq_dec l vi) as [-> | Hl2].
      { rewrite I2, I1, Hw1, Hc1. apply axpy_imag_cancel; [congruence | exact Lc'']. }
      rewrite Fr2 by assumption. now apply Fr1.
Qed.

(** The round trip when the two parts of [v] are one real vector. *)
Lemma axpy_roundtrip_one_vector (v w : JDVec.t) (alpha : complex F) (h : heap F) :
  JDVec.xc v = Some (JDVec.xr v) ->
  JDVec.xr w <> JDVec.xr v ->
  (forall c, JDVec.xc w = Some c -> c <> JDVec.xr v) ->
  length (RealVec.get h (JDVec.xr w)) = length (RealVec.get h (JDVec.xr v)) ->
  (forall c, JDVec.xc w = Some c ->
             length (RealVec.get h c) = length (RealVec.get h (JDVec.xr v))) ->
  exists h',
    (JDVec.axpy v alpha w ;; JDVec.axpy v (Cx.neg alpha) w) h = (Ok tt, h')
    /\ forall l, RealVec.get h' l = RealVec.get h l.
Proof.
  intros Hv Hwr Hc Lw Lc.
  destruct (axpy_shared_store v w alpha h Hv Hwr Hc Lw Lc) as (h1 & E1 & R1 & Fr1).
  assert (Hw1 : RealVec.get h1 (JDVec.xr w) = RealVec.get h (JDVec.xr w)) by now apply Fr1.
  assert (Hc1 : option_map (RealVec.get h1) (JDVec.xc w)
                = option_map (RealVec.get h) (JDVec.xc w)).
  { destruct (JDVec.xc w) as [c |] eqn:Ec; simpl; [| reflexivity].
    f_equal. apply Fr1. now apply Hc. }
  assert (Lc' : forall c, option_map (RealVec.get h) (JDVec.xc w) = Some c ->
                          length c = length (RealVec.get h (JDVec.xr v))).
  { intros c. destruct (JDVec.xc w) as [c0 |]; simpl; intros [= <-]. now apply Lc. }
  assert (LR : length (RealVec.get h1 (JDVec.xr v)) = length (RealVec.get h (JDVec.xr v))).
  { rewrite R1. now apply length_axpy_shared. }
  destruct (axpy_shared_store v w (Cx.neg alpha) h1 Hv Hwr Hc) as (h2 & E2 & R2 & Fr2).
  - congruence.
  - intros c Ec. rewrite Fr1 by now apply Hc. rewrite LR. now apply Lc.
  - exists h2. split.
    + erewrite bind_ok by exact E1. exact E2.
    + intros l.
      destruct (Nat.eq_dec l (JDVec.xr v)) as [-> | Hl1].
      { rewrite R2, R1, Hw1, Hc1. now apply axpy_shared_cancel. }
      rewrite Fr2 by assumption. now apply Fr1.
Qed.

(** C7, as amended.  In exact arithmetic, for a vector [v] with both
    parts (two real vectors, or one and the same), any scalar [alpha] and
    any vector [w] whose real vectors have the size of those of [v] and
    are none of them, [v.axpy(alpha, w); v.axpy(-alpha, w)] returns
    normally and leaves every vector of the store, those of [v] included,
    with the entries it had. *)
Theorem axpy_roundtrip_exact (v w : JDVec.t) (alpha : complex F) (h : heap F) vi :
  JDVec.xc v = Some vi ->
  JDVec.xr w <> JDVec.xr v ->
  JDVec.xr w <> vi ->
  (forall c, JDVec.xc w = Some c -> c <> JDVec.xr v /\ c <> vi) ->
  length (RealVec.get h (JDVec.xr w)) = length (RealVec.get h (JDVec.xr v)) ->
  length (RealVec.get h vi) = length (RealVec.get h (JDVec.xr v)) ->
  (forall c, JDVec.xc w = Some c ->
             length (RealVec.get h c) = length (RealVec.get h (JDVec.xr v))) ->
  exists h',
    (JDVec.axpy v alpha w ;; JDVec.axpy v (Cx.neg alpha) w) h = (Ok tt, h')
    /\ forall l, RealVec.get h' l = RealVec.get h l.
Proof.
  intros Hv Hwr Hwi Hc Lw Li Lc.
  destruct (Nat.eq_dec (JDVec.xr v) vi) as [E | Hri].
  - subst vi. apply axpy_roundtrip_one_vector; try assumption.
    intros c Ec. now destruct (Hc c Ec).
  - now apply axpy_roundtrip_two_vectors with (vi := vi).
Qed.

End JDVecExact.

Lemma axpy_roundtrip_exact_witness :
  exists h',
    (JDVec.axpy Ex.axpy_v Ex.axpy_alpha Ex.axpy_w ;;
     JDVec.axpy Ex.axpy_v (Cx.neg Ex.axpy_alpha) Ex.axpy_w) Ex.axpy_heap = (Ok tt, h')
    /\ forall l, RealVec.get h' l = RealVec.get Ex.axpy_heap l.
Proof.
  apply (axpy_roundtrip_exact Ex.axpy_v Ex.axpy_w Ex.axpy_alpha Ex.axpy_heap (vi := 1));
    try reflexivity; try (simpl; discriminate).
  - intros c [= <-]. split; discriminate.
  - intros c [= <-]. reflexivity.
Defined.

(** C5, the claim as stated, fails: on
    [self = (real=[1,0], imag=[0,1])], [other = (real=[1,0], imag=[0,-1])]
    the method [dot] does not return [1 + 1j]. *)
Lemma JDVec_dot_example_not_1_plus_1i :
  fst (JDVec.dot Ex.dot_self Ex.dot_other Ex.dot_heap) <> Ok (mkC (Ex.q 1 1) (Ex.q 1 1)).
Proof.
  rewrite (dot_hermitian Ex.dot_self Ex.dot_other Ex.dot_heap (sc := 1) (vc := 3)) by reflexivity. simpl.
  intros E.
  apply (f_equal (fun r => match r with Ok c => this (re c) | Raise _ => 0%Q end)) in E.
  vm_compute in E. discriminate.
Qed.

(** C5, as amended.  On that input [dot] returns [0 + 0j], which is what
    the formula [(xr.yr + xc.yc) + i (xr.yc - xc.yr)] gives:
    [(1 - 1) + i (0 - 0)]. *)
Theorem JDVec_dot_example_is_zero :
  JDVec.dot Ex.dot_self Ex.dot_other Ex.dot_heap
  = (Ok (mkC (Ex.q 0 1) (Ex.q 0 1)), Ex.dot_heap).
Proof.
  rewrite (dot_hermitian Ex.dot_self Ex.dot_other Ex.dot_heap (sc := 1) (vc := 3)) by reflexivity.
  repeat f_equal; apply Qc_is_canon; reflexivity.
Qed.

(** C7, the claim as stated, fails twice.  In binary64, with
    [v = (real=[1.0], imag=[0.0])], [w = (real=[1.0])] stored apart and
    [alpha = 1e20], the round trip leaves [0.0] in the real entry of [v],
    farther than [1e-12] from the [1.0] it held.  In exact arithmetic,
    with [w] the vector [v] itself and [alpha = 1], the round trip turns
    the real entries [1, 2] of [v] into [0, 0]. *)
Lemma axpy_roundtrip_counterexample :
  (exists h',
     (JDVec.axpy Ex.float_v Ex.float_alpha Ex.float_w ;;
      JDVec.axpy Ex.float_v (Cx.neg Ex.float_alpha) Ex.float_w) Ex.float_heap = (Ok tt, h')
     /\ RealVec.get Ex.float_heap 0 = [1%float]
     /\ RealVec.get h' 0 = [0%float]
     /\ PrimFloat.leb (PrimFloat.abs (0 - 1)%float) (lit 1 1000000000000) = false)
  /\ (exists h',
     (JDVec.axpy Ex.axpy_v (mkC (Ex.q 1 1) (Ex.q 0 1)) Ex.axpy_v ;;
      JDVec.axpy Ex.axpy_v (Cx.neg (mkC (Ex.q 1 1) (Ex.q 0 1))) Ex.axpy_v) Ex.axpy_heap
     = (Ok tt, h')
     /\ map this (RealVec.get Ex.axpy_heap 0) = [1 # 1; 2 # 1]%Q
     /\ map this (RealVec.get h' 0) = [0 # 1; 0 # 1]%Q).
Proof.
  split.
  - eexists. split; [vm_compute; reflexivity |].
    repeat split; vm_compute; reflexivity.
  - eexists. split; [vm_compute; reflexivity |].
    split; vm_compute; reflexivity.
Qed.

(** ** Exceptions of the vector layer *)

Create HintDb raises.

Ltac ro_step :=
  first
    [ apply ro_ret | apply ro_get | apply ro_gets | apply ro_modify
    | apply ro_raise; exact I
    | apply ro_attr; exact I
    | apply ro_index; exact I
    | apply ro_global_use; exact I
    | apply ro_bind; [| intros ?]
    | apply ro_for_; intros ?
    | apply ro_for_each; intros ? ?
    | apply ro_zoom
    | solve [auto with raises]
    | match goal with
      | |- raises_only _ (match ?x with _ => _ end) => destruct x
      | |- raises_only _ (let _ := _ in _) => cbv zeta
      end ].

Ltac ro_tac := repeat ro_step.

Section VectorRaises.
Context {F : Type} {SF : Scalar F} {RV : RealVecProvider F}.

Lemma ro_copyValues a b : raises_only raisable (RealVec.copyValues (F := F) a b).
Proof.
  intros h e h' E. unfold RealVec.copyValues in E.
  destruct (RealVec.same_size h a b); [discriminate |]. injection E as <- _. exact I.
Qed.

Lemma ro_rv_axpy a alpha b : raises_only raisable (RealVec.axpy a alpha b).
Proof.
  intros h e h' E. unfold RealVec.axpy in E.
  destruct (RealVec.same_size h a b); [discriminate |]. injection E as <- _. exact I.
Qed.

Lemma ro_rv_dot a b : raises_only raisable (RealVec.dot a b).
Proof.
  intros h e h' E. unfold RealVec.dot in E.
  destruct (RealVec.same_size h a b); [discriminate |]. injection E as <- _. exact I.
Qed.

Lemma ro_rv_scale a alpha : raises_only raisable (RealVec.scale a alpha).
Proof. intros h e h' E. discriminate E. Qed.

Lemma ro_rv_zeroEntries a : raises_only raisable (RealVec.zeroEntries (F := F) a).
Proof. intros h e h' E. discriminate E. Qed.

Lemma ro_rv_setRand a lo hi : raises_only raisable (RealVec.setRand a lo hi).
Proof. intros h e h' E. discriminate E. Qed.

Lemma ro_rv_applyBCs a : raises_only raisable (RealVec.applyBCs a).
Proof. intros h e h' E. discriminate E. Qed.

#[local] Hint Resolve ro_copyValues ro_rv_axpy ro_rv_dot ro_rv_scale ro_rv_zeroEntries
  ro_rv_setRand ro_rv_applyBCs : raises.

Lemma ro_rv_zero a : raises_only raisable (RealVec.zero a).
Proof. unfold RealVec.zero. ro_tac. Qed.

#[local] Hint Resolve ro_rv_zero : raises.

Lemma ro_jd_copy v w : raises_only raisable (JDVec.copy v w).
Proof. unfold JDVec.copy. ro_tac. Qed.

Lemma ro_jd_dot v w : raises_only raisable (JDVec.dot v w).
Proof. unfold JDVec.dot. ro_tac. Qed.

Lemma ro_jd_axpy v alpha w : raises_only raisable (JDVec.axpy v alpha w).
Proof. unfold JDVec.axpy. ro_tac. Qed.

Lemma ro_jd_scale v alpha : raises_only raisable (JDVec.scale v alpha).
Proof. unfold JDVec.scale. ro_tac. Qed.

Lemma ro_jd_zero v : raises_only raisable (JDVec.zero (F := F) v).
Proof. unfold JDVec.zero. ro_tac. Qed.

End VectorRaises.

#[export] Hint Resolve ro_copyValues ro_rv_axpy ro_rv_dot ro_rv_scale ro_rv_zeroEntries
  ro_rv_setRand ro_rv_applyBCs ro_rv_zero
  ro_jd_copy ro_jd_dot ro_jd_axpy ro_jd_scale ro_jd_zero : raises.

(** ** class GMRES *)

Section GMRESFacts.
Context {F : Type} {SF : Scalar F} {RV : RealVecProvider F} {LO : GMRES.LinearOps F}.

(** Each pass of the loop over [i] stops at line 164, where [H] is not a
    name of the module. *)
Lemma arnoldi_step_fails i : fails (GMRES.arnoldi_step i).
Proof.
  unfold GMRES.arnoldi_step.
  do 12 (apply fails_bind_r; intros ?).
  apply fails_bind_l, fails_global_use.
Qed.

Lemma back_substitute_fails : fails GMRES.back_substitute.
Proof. unfold GMRES.back_substitute. apply fails_bind_l, fails_global_use. Qed.

(** C1.  No call of [solve] returns the iteration count: every call ends
    in an exception, for every solver object, right-hand side and
    solution vector.  (With [msub >= 1] the first pass of the loop stops
    at line 164, [H] being unbound; with [msub = 0] line 193 stops on
    [niters].) *)
Theorem GMRES_solve_never_returns (b x : JDVec.t) (w : GMRES.world F) :
  exists e w', GMRES.solve b x w = (Raise e, w').
Proof.
  revert w. change (fails (GMRES.solve b x)).
  unfold GMRES.solve.
  do 10 (apply fails_bind_r; intros ?).
  apply fails_bind_r; intros _.
  apply fails_bind_l, back_substitute_fails.
Qed.

Lemma ro_W_at i : raises_only raisable (GMRES.W_at (F := F) i).
Proof. unfold GMRES.W_at. ro_tac. Qed.

Lemma ro_Z_at i : raises_only raisable (GMRES.Z_at (F := F) i).
Proof. unfold GMRES.Z_at. ro_tac. Qed.

Lemma ro_getH i k : raises_only raisable (GMRES.getH (F := F) i k).
Proof. unfold GMRES.getH. ro_tac. Qed.

Lemma ro_setH i k v : raises_only raisable (GMRES.setH (F := F) i k v).
Proof. unfold GMRES.setH. ro_tac. Qed.

Lemma ro_get_res i : raises_only raisable (GMRES.get_res (F := F) i).
Proof. unfold GMRES.get_res. ro_tac. Qed.

Lemma ro_set_res i v : raises_only raisable (GMRES.set_res (F := F) i v).
Proof. unfold GMRES.set_res. ro_tac. Qed.

Lemma ro_get_Qsin i : raises_only raisable (GMRES.get_Qsin (F := F) i).
Proof. unfold GMRES.get_Qsin. ro_tac. Qed.

Lemma ro_set_Qsin i v : raises_only raisable (GMRES.set_Qsin (F := F) i v).
Proof. unfold GMRES.set_Qsin. ro_tac. Qed.

Lemma ro_get_Qcos i : raises_only raisable (GMRES.get_Qcos (F := F) i).
Proof. unfold GMRES.get_Qcos. ro_tac. Qed.

Lemma ro_set_Qcos i v : raises_only raisable (GMRES.set_Qcos (F := F) i v).
Proof. unfold GMRES.set_Qcos. ro_tac. Qed.

#[local] Hint Resolve ro_W_at ro_Z_at ro_getH ro_setH ro_get_res ro_set_res
  ro_get_Qsin ro_set_Qsin ro_get_Qcos ro_set_Qcos : raises.

Lemma solve_fails b x : fails (GMRES.solve b x).
Proof.
  unfold GMRES.solve.
  do 10 (apply fails_bind_r; intros ?).
  apply fails_bind_r; intros _.
  apply fails_bind_l, back_substitute_fails.
Qed.

Lemma ro_pc_apply u v : raises_only GMRES.solve_raises (GMRES.pc_apply u v).
Proof. intros h e h' E. right. exists u, v, h, h'. now left. Qed.

Lemma ro_mat_mult u v : raises_only GMRES.solve_raises (GMRES.mat_mult u v).
Proof. intros h e h' E. right. exists u, v, h, h'. now right. Qed.

Lemma raisable_solve_raises e : raisable e -> GMRES.solve_raises e.
Proof. now left. Qed.

Lemma ro_lift {S A} (m : M S A) :
  raises_only raisable m -> raises_only GMRES.solve_raises m.
Proof. apply ro_weaken. exact raisable_solve_raises. Qed.

Ltac ro_solve_step :=
  first
    [ apply ro_lift; solve [auto with raises]
    | apply ro_pc_apply | apply ro_mat_mult
    | apply ro_ret | apply ro_get | apply ro_gets | apply ro_modify
    | apply ro_global_use; left; exact I
    | apply ro_index; left; exact I
    | apply ro_attr; left; exact I
    | apply ro_bind; [| intros ?]
    | apply ro_for_; intros ?
    | apply ro_zoom
    | match goal with
      | |- raises_only _ (let _ := _ in _) => cbv zeta
      end ].

Lemma ro_solve b x : raises_only GMRES.solve_raises (GMRES.solve b x).
Proof.
  unfold GMRES.solve, GMRES.back_substitute, GMRES.arnoldi_step,
    GMRES.orthogonalize, GMRES.rotate, GMRES.vec.
  repeat ro_solve_step.
Qed.


End GMRESFacts.

(** The failing input of C1: [msub = 1], the operator [diag(1, 2)],
    [b = (3, 4)].  The first pass computes [H[0,0] = 41/25] and
    [H[1,0] = 12/25] and stops on the name [H]. *)
Example solve_failing_input :
  let r := GMRES.solve (RV := Arith.provider false)
             (LO := Arith.diag_ops [Ex.q 1 1; Ex.q 2 1])
             Ex.gmres_b Ex.gmres_x (Ex.gmres_world [Ex.q 3 1; Ex.q 4 1]) in
  fst r = Raise (NameError "H")
  /\ map (map (fun c => (this (re c), this (im c)))) (GMRES.H (GMRES.self (snd r)))
     = [[(41 # 25, 0 # 1)]; [(12 # 25, 0 # 1)]]%Q.
Proof. split; vm_compute; reflexivity. Qed.

(** A solver as [__init__] leaves it has empty subspaces: its [solve]
    stops at line 144 on [self.W[0]]. *)
Example solve_fresh_object :
  fst (GMRES.solve (RV := Arith.provider false)
         (LO := Arith.diag_ops [Ex.q 1 1; Ex.q 2 1])
         Ex.gmres_b Ex.gmres_x (GMRES.mkWorld (GMRES.init 1) ∅))
  = Raise IndexError.
Proof. vm_compute. reflexivity. Qed.


(** ** Array helpers: exceptions and frames *)

Section NpFacts.
Context {S : Type}.

Lemma ro_shaped {A} (o : option A) : raises_only raisable (Np.shaped o : M S A).
Proof. unfold Np.shaped. ro_tac. Qed.

Lemma ro_get2 {A} (a : list (list A)) i k : raises_only raisable (Np.get2 a i k : M S A).
Proof. unfold Np.get2. ro_tac. Qed.

Lemma ro_set2 {A} (a : list (list A)) i k v : raises_only raisable (Np.set2 (S := S) a i k v).
Proof. unfold Np.set2. ro_tac. Qed.

Lemma ro_get_col {A} (a : list (list A)) k : raises_only raisable (Np.get_col (S := S) a k).
Proof. unfold Np.get_col. ro_tac. Qed.

Lemma ro_update_col {A B} (f : A -> B -> A) a k v :
  raises_only raisable (Np.update_col (S := S) f a k v).
Proof. unfold Np.update_col. pose proof (@ro_shaped (list B)). ro_tac. Qed.

Lemma ro_set_col {A} (a : list (list A)) k v : raises_only raisable (Np.set_col (S := S) a k v).
Proof. apply ro_update_col. Qed.

Lemma ro_take_indices {A} (a : list A) idx : raises_only raisable (Np.take_indices (S := S) a idx).
Proof. unfold Np.take_indices. ro_tac. Qed.

Lemma ro_last_of {A} (a : list A) : raises_only raisable (Np.last_of a : M S A).
Proof. unfold Np.last_of. ro_tac. Qed.

Lemma ro_dot_T {F} {SF : Scalar F} (modes : list (list F)) f :
  raises_only raisable (Np.dot_T (S := S) modes f).
Proof. unfold Np.dot_T. ro_tac. Qed.

Context {X : Type} (g : S -> X).

Lemma pres_shaped {A} (o : option A) : preserves g (Np.shaped o : M S A).
Proof. destruct o; [apply pres_ret | apply pres_raise]. Qed.

Lemma pres_get2 {A} (a : list (list A)) i k : preserves g (Np.get2 a i k : M S A).
Proof. unfold Np.get2. apply pres_bind; intros; apply pres_index. Qed.

Lemma pres_set2 {A} (a : list (list A)) i k v : preserves g (Np.set2 (S := S) a i k v).
Proof.
  unfold Np.set2.
  repeat (apply pres_bind; [apply pres_index | intros ?]). apply pres_ret.
Qed.

Lemma pres_get_col {A} (a : list (list A)) k : preserves g (Np.get_col (S := S) a k).
Proof.
  unfold Np.get_col. apply pres_for_each. intros row acc.
  apply pres_bind; [apply pres_index | intros ?; apply pres_ret].
Qed.

Lemma pres_update_col {A B} (f : A -> B -> A) a k v :
  preserves g (Np.update_col (S := S) f a k v).
Proof.
  unfold Np.update_col. apply pres_bind; [apply pres_shaped | intros v'].
  apply pres_for_each. intros rx acc.
  apply pres_bind; [apply pres_index | intros ?; apply pres_ret].
Qed.

Lemma pres_dot_T {F} {SF : Scalar F} (modes : list (list F)) f :
  preserves g (Np.dot_T (S := S) modes f).
Proof. unfold Np.dot_T. destruct (Nat.eqb _ _); [apply pres_ret | apply pres_raise]. Qed.

End NpFacts.

#[export] Hint Resolve ro_shaped ro_get2 ro_set2 ro_get_col ro_update_col ro_set_col
  ro_take_indices ro_last_of ro_dot_T : raises.

Create HintDb frame.

#[export] Hint Resolve pres_ret pres_raise pres_get pres_attr pres_index pres_global_use
  pres_shaped pres_get2 pres_set2 pres_get_col pres_update_col pres_dot_T : frame.

Ltac pres_step :=
  first
    [ solve [auto with frame]
    | apply pres_modify; intros ?; reflexivity
    | apply pres_bind; [| intros ?]
    | apply pres_for_; intros ?
    | apply pres_for_each; intros ? ?
    | match goal with
      | |- preserves _ (match ?x with _ => _ end) => destruct x
      | |- preserves _ (let _ := _ in _) => cbv zeta
      end ].

Ltac pres_tac := repeat pres_step.

(** ** class DLM: the flutter evaluation *)

Section FlutterFacts.
Context {F : Type} {SF : Scalar F} {EX : DLM.Externals F}.


Lemma pres_emit e : preserves DLM.model (DLM.emit e).
Proof. unfold DLM.emit. pres_tac. Qed.

Lemma pres_reduced_attr {A} n (f : DLM.reduced_t -> option A) :
  preserves DLM.model (DLM.reduced_attr n f).
Proof. unfold DLM.reduced_attr. pres_tac. Qed.

Lemma pres_mesh_T {A} (f : DLM.mesh_t -> option A) : preserves DLM.model (DLM.mesh_T f).
Proof. unfold DLM.mesh_T. pres_tac. Qed.

#[local] Hint Resolve pres_emit pres_reduced_attr pres_mesh_T : frame.

Lemma pres_computeInfluenceMatrix U w Mach :
  preserves DLM.model (DLM.computeInfluenceMatrix U w Mach).
Proof. unfold DLM.computeInfluenceMatrix. pres_tac. Qed.

#[local] Hint Resolve pres_computeInfluenceMatrix : frame.

Lemma pres_computeFlutterMat U p qinf Mach nvecs Kr vwash dwash modes :
  preserves DLM.model (DLM.computeFlutterMat U p qinf Mach nvecs Kr vwash dwash modes).
Proof. unfold DLM.computeFlutterMat. pres_tac. Qed.

#[local] Hint Resolve pres_computeFlutterMat : frame.

Lemma pres_computeFlutterDet U p qinf Mach nvecs Kr vwash dwash modes om :
  preserves DLM.model (DLM.computeFlutterDet U p qinf Mach nvecs Kr vwash dwash modes om).
Proof. unfold DLM.computeFlutterDet. pres_tac. Qed.

#[local] Hint Resolve pres_computeFlutterDet : frame.

Lemma pres_flutter_det U p qinf Mach kmode :
  preserves DLM.model (DLM.flutter_det U p qinf Mach kmode).
Proof. unfold DLM.flutter_det. pres_tac. Qed.

#[local] Hint Resolve pres_flutter_det : frame.

Lemma pres_computeFlutterMode rho Uval Mach kmode pinit max_iters tol :
  preserves DLM.model (DLM.computeFlutterMode rho Uval Mach kmode pinit max_iters tol).
Proof. unfold DLM.computeFlutterMode. pres_tac. Qed.

Lemma pres_sweep_seed kmode i pvals : preserves DLM.model (DLM.sweep_seed kmode i pvals).
Proof. unfold DLM.sweep_seed. pres_tac. Qed.

Lemma pres_sweep_iterate qinf Mach kmode det0 l :
  preserves DLM.model (DLM.sweep_iterate qinf Mach kmode det0 l).
Proof. unfold DLM.sweep_iterate. pres_tac. Qed.

#[local] Hint Resolve pres_sweep_seed pres_sweep_iterate : frame.

Lemma pres_sweep_sample rho Uvals Mach kmode i pvals :
  preserves DLM.model (DLM.sweep_sample rho Uvals Mach kmode i pvals).
Proof. unfold DLM.sweep_sample. pres_tac. Qed.

#[local] Hint Resolve pres_sweep_sample : frame.

Lemma pres_velocitySweep rho Uvals Mach nmodes :
  preserves DLM.model (DLM.velocitySweep rho Uvals Mach nmodes).
Proof. unfold DLM.velocitySweep. pres_tac. Qed.

(** C9.  [computeFlutterMat], [computeFlutterDet], [computeFlutterMode]
    and [velocitySweep] leave [Kr], [Qm], [Qm_modes], [Qm_vwash],
    [Qm_dwash] and [omega], and the vectors in the store, as they found
    them, whether they return or raise. *)
Theorem flutter_ops_preserve_reduced_model (s : DLM.state) :
  (forall U p qinf Mach nvecs Kr vwash dwash modes,
     let s' := snd (DLM.computeFlutterMat U p qinf Mach nvecs Kr vwash dwash modes s) in
     DLM.reduced s' = DLM.reduced s /\ DLM.vecs s' = DLM.vecs s)
  /\ (forall U p qinf Mach nvecs Kr vwash dwash modes om,
     let s' := snd (DLM.computeFlutterDet U p qinf Mach nvecs Kr vwash dwash modes om s) in
     DLM.reduced s' = DLM.reduced s /\ DLM.vecs s' = DLM.vecs s)
  /\ (forall rho Uval Mach kmode pinit max_iters tol,
     let s' := snd (DLM.computeFlutterMode rho Uval Mach kmode pinit max_iters tol s) in
     DLM.reduced s' = DLM.reduced s /\ DLM.vecs s' = DLM.vecs s)
  /\ (forall rho Uvals Mach nmodes,
     let s' := snd (DLM.velocitySweep rho Uvals Mach nmodes s) in
     DLM.reduced s' = DLM.reduced s /\ DLM.vecs s' = DLM.vecs s).
Proof.
  assert (split_model : forall s' : DLM.state, DLM.model s' = DLM.model s ->
            DLM.reduced s' = DLM.reduced s /\ DLM.vecs s' = DLM.vecs s).
  { intros s' E. unfold DLM.model in E. now injection E. }
  split; [| split; [| split]]; intros; apply split_model.
  - apply pres_computeFlutterMat.
  - apply pres_computeFlutterDet.
  - apply pres_computeFlutterMode.
  - apply pres_velocitySweep.
Qed.

End FlutterFacts.

(** ** class DLM: the velocity sweep *)

Section SweepFacts.
Context {F : Type} {SF : Scalar F} {EX : DLM.Externals F}.

Lemma for_each_cons_raise {S X L} (x : X) xs (body : X -> L -> M S (ctl * L)) l s e s' :
  body x l s = (Raise e, s') -> for_each (x :: xs) body l s = (Raise e, s').
Proof. intros E. simpl. now apply bind_raise. Qed.

(** The secant iteration of a sample, whenever it is reached, stops on
    the name [U] before anything has been evaluated. *)
Lemma sweep_iterate_NameError qinf Mach kmode det0 l (s : DLM.state) :
  DLM.sweep_iterate qinf Mach kmode det0 l s = (Raise (NameError "U"), s).
Proof.
  unfold DLM.sweep_iterate. cbv zeta.
  change (xrange 50) with (0 :: seq 1 49).
  apply for_each_cons_raise. apply bind_raise. reflexivity.
Qed.

Lemma sweep_sample_fails rho Uvals Mach kmode i pvals :
  fails (DLM.sweep_sample rho Uvals Mach kmode i pvals).
Proof.
  unfold DLM.sweep_sample.
  apply fails_bind_r; intros u. cbv zeta.
  do 5 (apply fails_bind_r; intros ?).
  apply fails_bind_l. intros s. eexists _, _. apply sweep_iterate_NameError.
Qed.

(** C2.  The determinant inside the secant iteration is not asked for at
    [Uvals[i]]: the iteration reads the name [U] of the module, which is
    unbound, and raises [NameError] with the state untouched.  A sweep
    over at least one mode and one velocity therefore never returns. *)
Theorem velocitySweep_inner_loop_stops_on_U (rho : F) (Uvals : list F) (Mach : F)
    (nmodes : nat) (s : DLM.state) :
  0 < nmodes ->
  Uvals <> [] ->
  (forall qinf kmode det0 l s0,
     DLM.sweep_iterate qinf Mach kmode det0 l s0 = (Raise (NameError "U"), s0))
  /\ exists e s', DLM.velocitySweep rho Uvals Mach nmodes s = (Raise e, s').
Proof.
  intros Hn HU. split.
  - intros. apply sweep_iterate_NameError.
  - revert s. change (fails (DLM.velocitySweep rho Uvals Mach nmodes)).
    unfold DLM.velocitySweep. cbv zeta.
    destruct nmodes as [| n]; [lia |].
    destruct Uvals as [| u0 us]; [congruence |].
    unfold xrange. simpl seq. simpl length.
    apply fails_for_each_cons. apply fails_bind_l.
    simpl seq. apply fails_for_each_cons. apply fails_bind_l.
    apply sweep_sample_fails.
Qed.

End SweepFacts.

Section ComplexFacts.
Context {F : Type} {SF : Scalar F} {EF : Exact F}.

Add Ring Fring'' : exact_ring.

Lemma complex_eq (a b : complex F) : re a = re b -> im a = im b -> a = b.
Proof. destruct a, b; simpl; congruence. Qed.

End ComplexFacts.

Section SeedFacts.
Context {F : Type} {SF : Scalar F} {EF : Exact F} {EX : DLM.Externals F}.

Add Ring Fring3 : exact_ring.

(** With one root in the table, the first seed is that root. *)
Lemma sweep_seed_one (s : DLM.state) (pvals : list (list (complex F))) (kmode : nat)
    (row : list (complex F)) (a : complex F) :
  pvals !! kmode = Some row ->
  row !! 0 = Some a ->
  DLM.sweep_seed kmode 1 pvals s
  = (Ok (a, mkC (re a + lit 1 1000)%sc (im a + lit 1 1000)%sc), s).
Proof.
  intros Hrow Ha.
  unfold DLM.sweep_seed, Np.get2, index, bind, ret.
  rewrite Hrow, Ha. do 3 f_equal; apply complex_eq; simpl; ring.
Qed.

(** Lines 942-960 as they are written, in exact arithmetic: the seeds
    that sample [i] of mode [kmode] would get from a table [pvals] of
    roots.  For [i = 0], [p1 = -0.1 + j omega[kmode]]; for [i = 1], [p1]
    is the root of sample 0 itself; for [i = 2], [p1 = 2 p[1] - p[0]];
    for [i >= 3], [p1 = 3 p[i-1] - 3 p[i-2] + p[i-3]]; and always
    [p2 = p1 + (0.001 + 0.001j)].  The state is only read. *)
Lemma sweep_seed_rule (s : DLM.state) (pvals : list (list (complex F))) (kmode : nat)
    (om : list F) (w : F) (row : list (complex F)) :
  DLM.omega (DLM.reduced s) = Some om ->
  om !! kmode = Some w ->
  pvals !! kmode = Some row ->
  let eps : F := lit 1 1000 in
  let second (p : complex F) := mkC (re p + eps)%sc (im p + eps)%sc in
  let seeded (i : nat) (p : complex F) :=
    DLM.sweep_seed kmode i pvals s = (Ok (p, second p), s) in
  seeded 0 (mkC (- lit 1 10)%sc w)
  /\ (forall a, row !! 0 = Some a -> seeded 1 a)
  /\ (forall a b, row !! 1 = Some a -> row !! 0 = Some b ->
        seeded 2 (mkC (of_Z 2 * re a - re b)%sc (of_Z 2 * im a - im b)%sc))
  /\ (forall i a b c, 3 <= i ->
        row !! (i - 1) = Some a -> row !! (i - 2) = Some b -> row !! (i - 3) = Some c ->
        seeded i (mkC (of_Z 3 * re a - of_Z 3 * re b + re c)%sc
                      (of_Z 3 * im a - of_Z 3 * im b + im c)%sc)).
Proof.
  intros Hom Hw Hrow eps second seeded. unfold seeded, second, eps. clear seeded second eps.
  assert (fin : forall (p p' q q' : complex F),
            p = p' -> q = q' -> (Ok (p, q), s) = (Ok (p', q'), s)) by (intros; subst; reflexivity).
  split; [| split; [| split]].
  - unfold DLM.sweep_seed, DLM.reduced_attr, attr, index, bind, get, ret.
    rewrite Hom, Hw. apply fin; apply complex_eq; simpl; ring.
  - intros a Ha. now apply sweep_seed_one with (row := row).
  - intros a b Ha Hb.
    unfold DLM.sweep_seed, Np.get2, index, bind, ret.
    change (2 - 1) with 1. change (2 - 2) with 0.
    rewrite Hrow, Ha, Hb. apply fin; apply complex_eq; simpl; ring.
  - intros i a b c Hi Ha Hb Hc.
    destruct i as [| [| [| i]]]; try lia.
    unfold DLM.sweep_seed, Np.get2, index, bind, ret.
    rewrite Hrow, Ha, Hb, Hc. apply fin; apply complex_eq; simpl; ring.
Qed.

End SeedFacts.

Lemma velocitySweep_inner_loop_stops_on_U_witness :
  (forall qinf kmode det0 l s0,
     DLM.sweep_iterate (EX := Ex.toy) qinf 0%float kmode det0 l s0
     = (Raise (NameError "U"), s0))
  /\ exists e s',
       DLM.velocitySweep 1%float Ex.sweep_U 0%float 1
         Ex.swept_state = (Raise e, s').
Proof.
  apply (@velocitySweep_inner_loop_stops_on_U float _ Ex.toy
           1%float Ex.sweep_U 0%float 1 Ex.swept_state).
  - lia.
  - discriminate.
Defined.

(** The failing input of C2: a sweep of one mode over the velocities
    [1.0, 2.0].  The determinant is asked for twice, at [Uvals[0] = 1.0]
    for the two seeds; the iteration then stops on the name [U]. *)
Example velocitySweep_failing_input :
  let r := DLM.velocitySweep 1%float Ex.sweep_U 0%float 1
             Ex.swept_state in
  fst r = Raise (NameError "U")
  /\ DLM.det_velocities (drop (length (DLM.out Ex.swept_state)) (DLM.out (snd r)))
     = [1%float; 1%float].
Proof. split; vm_compute; reflexivity. Qed.

(** [computeFlutterMode], which repeats the iteration with [Uval] in
    place of [U[i]], runs through on the same object. *)
Example computeFlutterMode_runs :
  exists p, fst (DLM.computeFlutterMode 1%float 1%float 0%float
                   0 None 20 Ex.tol12 Ex.swept_state) = Ok p.
Proof. eexists. vm_compute. reflexivity. Qed.

(** ** class DLM: the seeds that a sweep hands to the determinant *)

Section SeedCalls.
Context {F : Type} {SF : Scalar F} {EX : DLM.Externals F}.

Lemma rec_silent {A} (m : M DLM.state A) : preserves DLM.out m -> Obs.records [] m.
Proof.
  intros Hm s. exists []. rewrite Hm, app_nil_r. split; [reflexivity |].
  destruct (fst (m s)); reflexivity.
Qed.

Lemma rec_bind {A B} cs1 cs2 (m : M DLM.state A) (k : A -> M DLM.state B) :
  Obs.records cs1 m -> (forall a, Obs.records cs2 (k a)) ->
  Obs.records (cs1 ++ cs2) (bind m k).
Proof.
  intros Hm Hk s. unfold bind. destruct (Hm s) as (c1 & E1 & H1).
  destruct (m s) as [[a | e] s1]; simpl in E1, H1.
  - subst c1. destruct (Hk a s1) as (c2 & E2 & H2). exists (cs1 ++ c2). split.
    + now rewrite E2, E1, app_assoc.
    + destruct (fst (k a s1)); [now subst c2 | now apply prefix_app].
  - exists c1. split; [exact E1 |]. simpl. now apply prefix_app_r.
Qed.

Lemma rec_bind_ret {A B} cs (a : A) (k : A -> M DLM.state B) :
  Obs.records cs (k a) -> Obs.records cs (bind (ret a) k).
Proof. intros Hk s. exact (Hk s). Qed.

Lemma rec_emit_call U p : Obs.records [(U, p)] (DLM.emit (DLM.EvDetCall U p)).
Proof.
  intros s. exists [(U, p)]. split; [| reflexivity].
  unfold DLM.emit, modify, DLM.det_calls. simpl. now rewrite omap_app.
Qed.

Lemma out_reduced_attr {A} n (f : DLM.reduced_t -> option A) :
  preserves DLM.out (DLM.reduced_attr n f).
Proof. unfold DLM.reduced_attr. pres_tac. Qed.

Lemma out_mesh_T {A} (f : DLM.mesh_t -> option A) : preserves DLM.out (DLM.mesh_T f).
Proof. unfold DLM.mesh_T. pres_tac. Qed.

#[local] Hint Resolve out_reduced_attr out_mesh_T : frame.

Lemma out_computeInfluenceMatrix U w Mach :
  preserves DLM.out (DLM.computeInfluenceMatrix U w Mach).
Proof. unfold DLM.computeInfluenceMatrix. pres_tac. Qed.

#[local] Hint Resolve out_computeInfluenceMatrix : frame.

Lemma out_computeFlutterMat U p qinf Mach nvecs Kr vwash dwash modes :
  preserves DLM.out (DLM.computeFlutterMat U p qinf Mach nvecs Kr vwash dwash modes).
Proof. unfold DLM.computeFlutterMat. pres_tac. Qed.

Lemma rec_computeFlutterDet U p qinf Mach nvecs Kr vwash dwash modes om :
  Obs.records [(U, p)] (DLM.computeFlutterDet U p qinf Mach nvecs Kr vwash dwash modes om).
Proof.
  unfold DLM.computeFlutterDet.
  change [(U, p)] with ([(U, p)] ++ ([] : list (F * complex F))).
  apply rec_bind; [apply rec_emit_call | intros _].
  apply rec_silent. apply pres_bind; [apply out_computeFlutterMat | intros ?; apply pres_ret].
Qed.

Lemma rec_flutter_det U p qinf Mach kmode :
  Obs.records [(U, p)] (DLM.flutter_det U p qinf Mach kmode).
Proof.
  unfold DLM.flutter_det.
  do 6 (change [(U, p)] with (([] : list (F * complex F)) ++ [(U, p)]);
        apply rec_bind; [apply rec_silent, out_reduced_attr | intros ?]).
  change [(U, p)] with (([] : list (F * complex F)) ++ [(U, p)]).
  apply rec_bind; [apply rec_silent, pres_index | intros ?].
  apply rec_computeFlutterDet.
Qed.

(** Lines 942-945: the seeds of the first sample of a mode. *)
Lemma sweep_seed_first kmode pvals (s : DLM.state) :
  DLM.sweep_seed kmode 0 pvals s
  = match DLM.omega (DLM.reduced s) with
    | None => (Raise (AttributeError "omega"), s)
    | Some om =>
        match om !! kmode with
        | None => (Raise IndexError, s)
        | Some w =>
            let p1 := Cx.add (Cx.of_real (- lit 1 10)%sc) (Cx.mul Cx.j (Cx.of_real w)) in
            (Ok (p1, Cx.add p1 (Cx.add (Cx.of_real (lit 1 1000))
                                       (Cx.mul Cx.j (Cx.of_real (lit 1 1000))))), s)
        end
    end.
Proof.
  unfold DLM.sweep_seed, DLM.reduced_attr, attr, index, bind, get, ret, raise.
  destruct (DLM.omega (DLM.reduced s)) as [om |]; [| reflexivity].
  destruct (om !! kmode); reflexivity.
Qed.

(** The first sample of a mode: its two seeds go to the determinant, at
    the velocity of the sample, and the iteration then stops on the name
    [U]. *)
Lemma sweep_sample_first rho u us Mach kmode pvals (s : DLM.state) :
  exists e s' calls,
    DLM.sweep_sample rho (u :: us) Mach kmode 0 pvals s = (Raise e, s')
    /\ DLM.det_calls (DLM.out s') = DLM.det_calls (DLM.out s) ++ calls
    /\ (calls = []
        \/ exists om w,
             DLM.omega (DLM.reduced s) = Some om /\ om !! kmode = Some w
             /\ let p1 := Cx.add (Cx.of_real (- lit 1 10)%sc) (Cx.mul Cx.j (Cx.of_real w)) in
                let p2 := Cx.add p1 (Cx.add (Cx.of_real (lit 1 1000))
                                            (Cx.mul Cx.j (Cx.of_real (lit 1 1000)))) in
                calls = [(u, p1)] \/ calls = [(u, p1); (u, p2)]).
Proof.
  unfold DLM.sweep_sample.
  change (index (u :: us) 0) with (ret (S := DLM.state) u).
  unfold bind at 1, ret at 1. cbv zeta.
  unfold bind at 1. rewrite sweep_seed_first.
  destruct (DLM.omega (DLM.reduced s)) as [om |] eqn:Eom.
  2:{ exists (AttributeError "omega"), s, []. rewrite app_nil_r.
      split; [reflexivity |]. split; [reflexivity | now left]. }
  destruct (om !! kmode) as [w |] eqn:Ew.
  2:{ exists IndexError, s, []. rewrite app_nil_r.
      split; [reflexivity |]. split; [reflexivity | now left]. }
  cbv zeta. unfold bind at 1, ret at 1. cbn [fst snd].
  set (p1 := Cx.add (Cx.of_real (- lit 1 10)%sc) (Cx.mul Cx.j (Cx.of_real w))).
  set (p2 := Cx.add p1 (Cx.add (Cx.of_real (lit 1 1000))
                               (Cx.mul Cx.j (Cx.of_real (lit 1 1000))))).
  set (qinf := (lit 1 2 * rho * (u * u))%sc).
  match goal with
  | |- exists e s' calls, ?run s = _ /\ _ => set (m := run)
  end.
  assert (Hrec : Obs.records ([(u, p1)] ++ [(u, p2)] ++ [] ++ []) m).
  { subst m.
    apply rec_bind; [apply rec_flutter_det | intros d1].
    apply rec_bind_ret.
    apply rec_bind; [apply rec_flutter_det | intros d2].
    apply rec_bind.
    - apply rec_silent. intros s0. now rewrite sweep_iterate_NameError.
    - intros l. apply rec_silent. apply pres_set2. }
  assert (Hfail : fails m).
  { subst m.
    apply fails_bind_r; intros d1.
    apply fails_bind_r; intros u''. apply fails_bind_r; intros d2.
    apply fails_bind_l.
    intros s0. eexists _, _. apply sweep_iterate_NameError. }
  destruct (Hrec s) as (calls & Ec & Hc). destruct (Hfail s) as (e & s' & E).
  rewrite E in Ec, Hc. simpl in Ec, Hc.
  exists e, s', calls. split; [exact E |]. split; [exact Ec |].
  destruct Hc as (k & Hk).
  destruct calls as [| c1 [| c2 [| c3 calls]]]; simpl in Hk.
  - now left.
  - right. exists om, w. split; [reflexivity |]. split; [exact Ew |].
    left. now injection Hk as <- _.
  - right. exists om, w. split; [reflexivity |]. split; [exact Ew |].
    right. now injection Hk as <- <- _.
  - discriminate Hk.
Qed.


End SeedCalls.


(** The failing input of C8: on that sweep both seeds of sample 0 reach
    the determinant, at [Uvals[0] = 1.0], and sample 1 is never seeded:
    the determinant is asked for twice in all. *)
Example velocitySweep_second_sample_unseeded :
  let r := DLM.velocitySweep 1%float Ex.sweep_U 0%float 1 Ex.swept_state in
  fst r = Raise (NameError "U")
  /\ map fst (DLM.det_calls (drop (length (DLM.out Ex.swept_state)) (DLM.out (snd r))))
     = [1%float; 1%float].
Proof. split; vm_compute; reflexivity. Qed.

(** ** class DLM: the reduced basis *)

(** [createVec] hands out a handle that no vector of the store uses. *)
Lemma fresh_loc_above {F : Type} (h : heap F) (k : loc) :
  is_Some (h !! k) -> k < DLM.fresh_loc h.
Proof.
  unfold DLM.fresh_loc. revert k.
  apply (map_fold_weak_ind (fun acc (m : gmap nat (list F)) =>
                              forall k, is_Some (m !! k) -> k < acc)).
  - intros k [x Hx]. now rewrite lookup_empty in Hx.
  - intros i x m r Hi IH k Hk.
    destruct (Nat.eq_dec i k) as [-> | Hne].
    + lia.
    + rewrite lookup_insert_ne in Hk by assumption. specialize (IH k Hk). lia.
Qed.

Lemma fresh_loc_unused {F : Type} (h : heap F) : h !! DLM.fresh_loc h = None.
Proof.
  destruct (h !! DLM.fresh_loc h) eqn:E; [| reflexivity].
  assert (DLM.fresh_loc h < DLM.fresh_loc h) by (apply fresh_loc_above; eauto).
  lia.
Qed.

Section SubspaceFacts.
Context {F : Type} {SF : Scalar F} {RV : RealVecProvider F} {EX : DLM.Externals F}.

Lemma ro_pure {S A} (a : A) (g : S -> S) : raises_only raisable (fun s => (Ok a, g s)).
Proof. intros s e s' E. discriminate E. Qed.

Lemma ro_svec {A} (m : M (heap F) A) :
  raises_only raisable m -> raises_only raisable (DLM.svec m).
Proof. intros Hm. unfold DLM.svec. now apply ro_zoom. Qed.

Lemma ro_emit e : raises_only raisable (DLM.emit e).
Proof. unfold DLM.emit. ro_tac. Qed.

Lemma ro_reduced_attr {A} n (f : DLM.reduced_t -> option A) :
  raises_only raisable (DLM.reduced_attr n f).
Proof. unfold DLM.reduced_attr. ro_tac. Qed.

Lemma ro_mesh_T {A} (f : DLM.mesh_t -> option A) : raises_only raisable (DLM.mesh_T f).
Proof. unfold DLM.mesh_T. ro_tac. Qed.

Lemma ro_the_structure n : raises_only raisable (DLM.the_structure n).
Proof. unfold DLM.the_structure. ro_tac. Qed.

#[local] Hint Resolve ro_pure ro_emit ro_reduced_attr ro_mesh_T ro_the_structure : raises.

Lemma ro_modify_structure n f : raises_only raisable (DLM.modify_structure n f).
Proof. unfold DLM.modify_structure. ro_tac. Qed.

Lemma ro_createVec : raises_only raisable DLM.createVec.
Proof. unfold DLM.createVec. ro_tac. Qed.

Lemma ro_Vm_list : raises_only raisable DLM.Vm_list.
Proof. unfold DLM.Vm_list. ro_tac. Qed.

Lemma ro_temp_vec : raises_only raisable DLM.temp_vec.
Proof. unfold DLM.temp_vec. ro_tac. Qed.

Lemma ro_local {A} n (o : option A) : raises_only raisable (DLM.local n o).
Proof. unfold DLM.local. ro_tac. Qed.

#[local] Hint Resolve ro_modify_structure ro_createVec ro_Vm_list ro_temp_vec ro_local : raises.

Lemma ro_Vm_at i : raises_only raisable (DLM.Vm_at i).
Proof. unfold DLM.Vm_at. ro_tac. Qed.

#[local] Hint Resolve ro_Vm_at : raises.

Ltac ro_dlm := repeat first [ apply ro_svec | ro_step ].

Lemma ro_smat_mult n A x :
  raises_only raisable x -> raises_only raisable (DLM.smat_mult n A x).
Proof. intros Hx. unfold DLM.smat_mult. ro_dlm. Qed.

Lemma ro_getModeBCs mode : raises_only raisable (DLM.getModeBCs mode).
Proof. unfold DLM.getModeBCs. ro_dlm. Qed.

Lemma ro_set_Kr_entry i k v : raises_only raisable (DLM.set_Kr_entry i k v).
Proof. unfold DLM.set_Kr_entry. ro_dlm. Qed.

Lemma ro_set_reduced_col n f upd k v :
  raises_only raisable (DLM.set_reduced_col n f upd k v).
Proof. unfold DLM.set_reduced_col. ro_dlm. Qed.

#[local] Hint Resolve ro_getModeBCs ro_set_Kr_entry ro_set_reduced_col : raises.

Lemma ro_lanczos Vm sigma : raises_only raisable (DLM.lanczos Vm sigma).
Proof.
  unfold DLM.lanczos, DLM.lanczos_orthogonalize.
  repeat first [ apply ro_svec | apply ro_smat_mult | ro_step ].
Qed.

#[local] Hint Resolve ro_lanczos : raises.

Lemma ro_restart_loop m r sigma tol max_iters :
  raises_only raisable (DLM.restart_loop m r sigma tol max_iters).
Proof. unfold DLM.restart_loop, DLM.restart. ro_dlm. Qed.

Lemma ro_build_basis m r use_modes l :
  raises_only raisable (DLM.build_basis m r use_modes l).
Proof.
  unfold DLM.build_basis.
  repeat first [ apply ro_svec | apply ro_smat_mult | ro_step ].
Qed.

Lemma ro_allocate_subspace m : raises_only raisable (DLM.allocate_subspace m).
Proof. unfold DLM.allocate_subspace. ro_dlm. Qed.

Lemma ro_setUpSubspace m r sigma tol max_iters use_modes :
  raises_only raisable (DLM.setUpSubspace m r sigma tol max_iters use_modes).
Proof.
  unfold DLM.setUpSubspace.
  apply ro_bind; [apply ro_allocate_subspace | intros _].
  apply ro_bind; [apply ro_restart_loop | intros l].
  apply ro_build_basis.
Qed.

End SubspaceFacts.

(** ** Frames of a component of the state *)

Section FrameFacts.
Context {S X : Type} (f : S -> X).

Lemma pres_zoom {T A} (proj : S -> T) (upd : T -> S -> S) (m : M T A) :
  (forall t s, f (upd t s) = f s) -> preserves f (zoom proj upd m).
Proof. intros Hu s. unfold zoom. destruct (m (proj s)) as [r t]. apply Hu. Qed.

Lemma pres_gets {A} (g : S -> A) : preserves f (gets g).
Proof. now intros s. Qed.

End FrameFacts.

Lemma map_insert_same {A B} (g : A -> B) (l : list A) i x y :
  l !! i = Some x -> g y = g x -> map g (<[i := y]> l) = map g l.
Proof.
  revert i. induction l as [| a l IH]; intros [| i] E Hg; simpl in *; try discriminate.
  - injection E as ->. now rewrite Hg.
  - f_equal. now apply IH.
Qed.

(** ** Reasoning about normal returns *)

Section ReturnFacts.
Context {S : Type}.

Lemma returns_ret {A} (Q : A -> S -> Prop) (a : A) :
  (forall s, Q a s) -> Obs.returns Q (ret a).
Proof. intros HQ s a' s' E. injection E as <- <-. apply HQ. Qed.

Lemma returns_bind_any {A B} (Q : B -> S -> Prop) (m : M S A) (k : A -> M S B) :
  (forall a, Obs.returns Q (k a)) -> Obs.returns Q (bind m k).
Proof.
  intros Hk s b s' E. unfold bind in E.
  destruct (m s) as [[a | e] s1]; [exact (Hk a _ _ _ E) | discriminate E].
Qed.

Lemma returns_bind_pure {A B} (R : A -> Prop) (Q : B -> S -> Prop) (m : M S A)
    (k : A -> M S B) :
  Obs.returns (fun a _ => R a) m -> (forall a, R a -> Obs.returns Q (k a)) ->
  Obs.returns Q (bind m k).
Proof.
  intros Hm Hk s b s' E. unfold bind in E.
  destruct (m s) as [[a | e] s1] eqn:Em; [| discriminate E].
  exact (Hk a (Hm _ _ _ Em) _ _ _ E).
Qed.

Lemma returns_for_each_pure {X L} (I : L -> Prop) (xs : list X)
    (body : X -> L -> M S (ctl * L)) (l : L) :
  (forall x l, I l -> Obs.returns (fun cl _ => I (snd cl)) (body x l)) ->
  I l -> Obs.returns (fun l' _ => I l') (for_each xs body l).
Proof.
  intros Hb. revert l. induction xs as [| x xs IH]; intros l Hl; simpl.
  - now apply returns_ret.
  - apply returns_bind_pure with (R := fun cl => I (snd cl)); [now apply Hb |].
    intros [[|] l'] Hl'; [now apply IH | now apply returns_ret].
Qed.

Lemma after_bind {A B} (P : S -> Prop) (R : A -> S -> Prop) (Q : B -> S -> Prop)
    (m : M S A) (k : A -> M S B) :
  Obs.after P m R -> (forall a, Obs.after (R a) (k a) Q) -> Obs.after P (bind m k) Q.
Proof.
  intros Hm Hk s b s' HP E. unfold bind in E.
  destruct (m s) as [[a | e] s1] eqn:Em; [| discriminate E].
  exact (Hk a s1 b s' (Hm _ _ _ HP Em) E).
Qed.

Lemma after_weaken {A} (P P' : S -> Prop) (Q Q' : A -> S -> Prop) (m : M S A) :
  (forall s, P' s -> P s) -> (forall a s, Q a s -> Q' a s) ->
  Obs.after P m Q -> Obs.after P' m Q'.
Proof. intros HP HQ Hm s a s' H E. apply HQ. exact (Hm _ _ _ (HP _ H) E). Qed.

Lemma after_ret {A} (P : S -> Prop) (Q : A -> S -> Prop) (a : A) :
  (forall s, P s -> Q a s) -> Obs.after P (ret a) Q.
Proof. intros HQ s a' s' HP E. injection E as <- <-. now apply HQ. Qed.

Lemma after_modify (P : S -> Prop) (Q : unit -> S -> Prop) (f : S -> S) :
  (forall s, P s -> Q tt (f s)) -> Obs.after P (modify f) Q.
Proof. intros HQ s a s' HP E. injection E as <- <-. now apply HQ. Qed.

Lemma after_get (P : S -> Prop) : Obs.after P get (fun a s => a = s /\ P s).
Proof. intros s a s' HP E. injection E as <- <-. now split. Qed.

Lemma after_pres {A X} (f : S -> X) (T : X -> Prop) (m : M S A) :
  preserves f m -> Obs.after (fun s => T (f s)) m (fun _ s => T (f s)).
Proof. intros Hm s a s' HT E. specialize (Hm s). rewrite E in Hm. simpl in Hm. now rewrite Hm. Qed.

Lemma after_pure {A} (P : S -> Prop) (H : Prop) (Q : A -> S -> Prop) (m : M S A) :
  (H -> Obs.after P m Q) -> Obs.after (fun s => P s /\ H) m Q.
Proof. intros Hm s a s' [HP HH] E. exact (Hm HH _ _ _ HP E). Qed.

Lemma after_for_ {X} (I : nat -> S -> Prop) (xs : list X) (body : X -> M S unit) (n : nat) :
  (forall j x, Obs.after (I j) (body x) (fun _ => I (Datatypes.S j))) ->
  Obs.after (I n) (for_ xs body) (fun _ => I (n + length xs)).
Proof.
  intros Hb. revert n. induction xs as [| x xs IH]; intros n; simpl.
  - apply after_ret. intros s Hs. now rewrite Nat.add_0_r.
  - apply after_bind with (R := fun _ => I (Datatypes.S n)); [apply Hb | intros _].
    replace (n + Datatypes.S (length xs)) with (Datatypes.S n + length xs) by lia. apply IH.
Qed.

End ReturnFacts.

(** ** class DLM: the vectors that [setUpSubspace] allocates *)

Section AllocationFacts.
Context {F : Type} {SF : Scalar F} {RV : RealVecProvider F} {EX : DLM.Externals F}.

Lemma build_basis_without_omega m r use_modes sigma ev c :
  fails (DLM.build_basis m r use_modes (DLM.mkLocals sigma ev None c)).
Proof.
  unfold DLM.build_basis. cbv zeta.
  do 10 (apply fails_bind_r; intros ?).
  apply fails_bind_l. apply fails_raise.
Qed.

Lemma pres_Vm_the_structure n : preserves DLM.Vm (DLM.the_structure n).
Proof. unfold DLM.the_structure. pres_tac. Qed.

#[local] Hint Resolve pres_Vm_the_structure : frame.

Lemma pres_Vm_modify_structure n f : preserves DLM.Vm (DLM.modify_structure n f).
Proof. unfold DLM.modify_structure. pres_tac. Qed.

Lemma pres_Vm_createVec : preserves DLM.Vm DLM.createVec.
Proof. unfold DLM.createVec. pres_tac. Qed.

Lemma pres_Vm_svec {A} (m : M (heap F) A) : preserves DLM.Vm (DLM.svec m).
Proof. unfold DLM.svec. now apply pres_zoom. Qed.

#[local] Hint Resolve pres_Vm_modify_structure pres_Vm_createVec pres_Vm_svec : frame.

Lemma pres_Vm_Vm_at i : preserves DLM.Vm (DLM.Vm_at i).
Proof. unfold DLM.Vm_at, DLM.Vm_list. pres_tac. Qed.

#[local] Hint Resolve pres_Vm_Vm_at : frame.

(** After the allocation the object holds [m] Lanczos vectors, or as
    many as it held before if those were more. *)
Lemma allocate_subspace_vectors m n0 :
  Obs.after (fun s => length (Obs.lanczos_vectors s) = n0)
            (DLM.allocate_subspace m)
            (fun _ s => Obs.holds (Nat.max n0 m) (DLM.Vm s)).
Proof.
  unfold DLM.allocate_subspace.
  pose (T := fun v : option (list loc) => length (default [] v) = n0).
  do 4 (apply after_bind with (R := fun _ s => T (DLM.Vm s));
        [apply after_pres with (f := DLM.Vm) (T := T); pres_tac | intros _]).
  apply after_bind with (R := fun _ s => T (DLM.Vm s));
    [apply after_pres with (f := DLM.Vm) (T := T); pres_tac | intros s0].
  apply after_bind with (R := fun _ s => T (DLM.Vm s));
    [apply after_pres with (f := DLM.Vm) (T := T); pres_tac | intros _].
  apply after_bind with (R := fun a s => a = s /\ T (DLM.Vm s)); [apply after_get | intros s1].
  apply after_bind with (R := fun _ s => Obs.holds n0 (DLM.Vm s)).
  { intros s a s' [-> HT] E. unfold T in HT.
    destruct (DLM.Vm s) as [vm |] eqn:EV.
    - injection E as _ <-. exists vm. now split.
    - injection E as _ <-. simpl in *. exists []. now split. }
  intros _.
  apply after_bind with (R := fun vm s => Obs.holds n0 (DLM.Vm s) /\ length vm = n0).
  { intros s a s' (vm & EV & Hl) E. unfold DLM.Vm_list, bind, get in E. rewrite EV in E.
    injection E as <- <-. split; [now exists vm | exact Hl]. }
  intros vm.
  apply after_bind with (R := fun _ s => Obs.holds (Nat.max n0 m) (DLM.Vm s)).
  { apply after_pure. intros Hl.
    destruct (Nat.ltb_spec (length vm) m) as [Hlt | Hge].
    - eapply after_weaken;
        [| | apply after_for_ with (I := fun j s => Obs.holds (n0 + j) (DLM.Vm s)) (n := 0)].
      + intros s Hs. now rewrite Nat.add_0_r.
      + intros a s Hs. simpl in Hs. unfold xrange2 in Hs. rewrite length_seq in Hs.
        replace (Nat.max n0 m) with (n0 + (m - length vm)) by lia. exact Hs.
      + intros j _.
        apply after_bind with (R := fun _ s => Obs.holds (n0 + j) (DLM.Vm s));
          [apply after_pres with (f := DLM.Vm) (T := Obs.holds (n0 + j)); pres_tac | intros l].
        intros s a s' (vm1 & EV & Hl1) E.
        unfold DLM.Vm_list, bind, get, modify in E. rewrite EV in E.
        injection E as _ <-. simpl. exists (vm1 ++ [l]). split; [reflexivity |].
        rewrite length_app. simpl. lia.
    - apply after_ret. intros s Hh. replace (Nat.max n0 m) with n0 by lia. exact Hh. }
  intros _.
  apply after_pres with (f := DLM.Vm) (T := Obs.holds (Nat.max n0 m)). pres_tac.
Qed.

End AllocationFacts.

(** ** class DLM: the reduced model that [setUpSubspace] builds *)

Section ArrayShapes.
Context {St A : Type}.

Lemma bcast_length {C} (n : nat) (v v' : list C) : Np.bcast n v = Some v' -> length v' = n.
Proof.
  unfold Np.bcast. destruct (Nat.eqb_spec (length v) n) as [E | E].
  - now intros [= <-].
  - destruct v as [| a [| b v]]; try discriminate. intros [= <-]. apply length_replicate.
Qed.

Lemma map_fst_zip {C B} (a : list C) (b : list B) :
  length a = length b -> map fst (zip a b) = a.
Proof.
  revert b. induction a as [| x a IH]; intros [| y b] E; simpl in *; try discriminate.
  - reflexivity.
  - f_equal. apply IH. lia.
Qed.

Lemma update_col_loop {B} (f : A -> B -> A) (k : nat) (l : list (list A * B))
    (acc : list (list A)) (s : St) r s' :
  for_each l (fun rx acc =>
      bind (index (fst rx) k) (fun x =>
        ret (Next, acc ++ [<[k := f x (snd rx)]> (fst rx)]))) acc s = (Ok r, s') ->
  Obs.row_lengths r = Obs.row_lengths acc ++ Obs.row_lengths (map fst l).
Proof.
  revert acc s. induction l as [| [row b] l IH]; intros acc s E.
  - injection E as <- _. unfold Obs.row_lengths. simpl. now rewrite app_nil_r.
  - cbn [for_each] in E. unfold bind at 1 in E. unfold bind at 1 in E.
    unfold index at 1 in E. cbn [fst snd] in E.
    destruct (row !! k) as [x |]; [| discriminate E].
    unfold ret at 1 in E. unfold ret at 1 in E.
    apply IH in E. rewrite E. unfold Obs.row_lengths.
    rewrite map_app. simpl. rewrite length_insert, <- app_assoc. reflexivity.
Qed.

Lemma update_col_rows {B} (f : A -> B -> A) (a : list (list A)) (k : nat) (v : list B)
    (s : St) a' s' :
  Np.update_col f a k v s = (Ok a', s') -> Obs.row_lengths a' = Obs.row_lengths a.
Proof.
  unfold Np.update_col, Np.shaped. intros E.
  destruct (Np.bcast (length a) v) as [v' |] eqn:Eb; [| discriminate E].
  unfold bind at 1, ret at 1 in E.
  apply update_col_loop in E. rewrite E.
  rewrite map_fst_zip by (symmetry; eapply bcast_length; eauto). reflexivity.
Qed.

Lemma after_for_each_next {X L} (I : nat -> St -> Prop) (xs : list X)
    (body : X -> L -> M St (ctl * L)) (l : L) (n : nat) :
  (forall j x l, Obs.after (I j) (body x l) (fun cl s => I (S j) s /\ fst cl = Next)) ->
  Obs.after (I n) (for_each xs body l) (fun _ => I (n + length xs)).
Proof.
  intros Hb. revert n l. induction xs as [| x xs IH]; intros n l; simpl.
  - apply after_ret. intros s Hs. now rewrite Nat.add_0_r.
  - apply after_bind with (R := fun cl s => I (S n) s /\ fst cl = Next); [apply Hb |].
    intros [c l']. apply after_pure with (P := I (S n)) (H := c = Next). intros ->.
    replace (n + S (length xs)) with (S n + length xs) by lia. apply IH.
Qed.

End ArrayShapes.

Section SubspaceShape.
Context {F : Type} {SF : Scalar F} {RV : RealVecProvider F} {EX : DLM.Externals F}.

Lemma pres_through {S X Y A} (f : S -> X) (g : X -> Y) (h : S -> Y) (m : M S A) :
  (forall s, h s = g (f s)) -> preserves f m -> preserves h m.
Proof. intros Hh Hm s. rewrite !Hh. now rewrite Hm. Qed.

Lemma pres_take_indices {S X A} (f : S -> X) (a : list A) idx :
  preserves f (Np.take_indices (S := S) a idx).
Proof. unfold Np.take_indices. pres_tac. Qed.

Lemma pres_last_of {S X A} (f : S -> X) (a : list A) : preserves f (Np.last_of (S := S) a).
Proof. unfold Np.last_of. pres_tac. Qed.

Lemma pres_set_col {S X A} (f : S -> X) (a : list (list A)) k v :
  preserves f (Np.set_col (S := S) a k v).
Proof. unfold Np.set_col. apply pres_update_col. Qed.

#[local] Hint Resolve pres_take_indices pres_last_of pres_set_col pres_gets : frame.

(** *** What the Lanczos phase leaves alone *)

Lemma quiet_emit e : preserves Obs.quiet (DLM.emit e).
Proof. unfold DLM.emit. pres_tac. Qed.

Lemma quiet_the_structure n : preserves Obs.quiet (DLM.the_structure n).
Proof. unfold DLM.the_structure. pres_tac. Qed.

Lemma quiet_reduced_attr {A} n (f : DLM.reduced_t -> option A) :
  preserves Obs.quiet (DLM.reduced_attr n f).
Proof. unfold DLM.reduced_attr. pres_tac. Qed.

Lemma quiet_mesh_T {A} (f : DLM.mesh_t -> option A) : preserves Obs.quiet (DLM.mesh_T f).
Proof. unfold DLM.mesh_T. pres_tac. Qed.

Lemma quiet_local {A} n (o : option A) : preserves Obs.quiet (DLM.local n o).
Proof. unfold DLM.local. pres_tac. Qed.

Lemma quiet_Vm_list : preserves Obs.quiet DLM.Vm_list.
Proof. unfold DLM.Vm_list. pres_tac. Qed.

Lemma quiet_temp_vec : preserves Obs.quiet DLM.temp_vec.
Proof. unfold DLM.temp_vec. pres_tac. Qed.

Lemma quiet_svec {A} (m : M (heap F) A) : preserves Obs.quiet (DLM.svec m).
Proof. unfold DLM.svec. now apply pres_zoom. Qed.

#[local] Hint Resolve quiet_emit quiet_the_structure quiet_reduced_attr quiet_mesh_T
  quiet_local quiet_Vm_list quiet_temp_vec quiet_svec : frame.

Lemma quiet_modify_structure n f : preserves Obs.quiet (DLM.modify_structure n f).
Proof. unfold DLM.modify_structure. pres_tac. Qed.

Lemma quiet_createVec : preserves Obs.quiet DLM.createVec.
Proof. unfold DLM.createVec. pres_tac. Qed.

Lemma quiet_Vm_at i : preserves Obs.quiet (DLM.Vm_at i).
Proof. unfold DLM.Vm_at. pres_tac. Qed.

Lemma quiet_getModeBCs mode : preserves Obs.quiet (DLM.getModeBCs mode).
Proof. unfold DLM.getModeBCs. pres_tac. Qed.

#[local] Hint Resolve quiet_modify_structure quiet_createVec quiet_Vm_at
  quiet_getModeBCs : frame.

Lemma quiet_smat_mult n A x :
  preserves Obs.quiet x -> preserves Obs.quiet (DLM.smat_mult n A x).
Proof. intros Hx. unfold DLM.smat_mult. pres_tac. Qed.

#[local] Hint Resolve quiet_smat_mult : frame.

Lemma quiet_lanczos_orthogonalize Vm i j alpha :
  preserves Obs.quiet (DLM.lanczos_orthogonalize Vm i j alpha).
Proof. unfold DLM.lanczos_orthogonalize. pres_tac. Qed.

#[local] Hint Resolve quiet_lanczos_orthogonalize : frame.

Lemma quiet_lanczos Vm sigma : preserves Obs.quiet (DLM.lanczos Vm sigma).
Proof. unfold DLM.lanczos. pres_tac. Qed.

#[local] Hint Resolve quiet_lanczos : frame.

Lemma quiet_restart m r tol i l : preserves Obs.quiet (DLM.restart m r tol i l).
Proof. unfold DLM.restart. pres_tac. Qed.

#[local] Hint Resolve quiet_restart : frame.

Lemma quiet_restart_loop m r sigma tol max_iters :
  preserves Obs.quiet (DLM.restart_loop m r sigma tol max_iters).
Proof. unfold DLM.restart_loop. pres_tac. Qed.

Lemma shapes_of_quiet {A} (m : M DLM.state A) :
  preserves Obs.quiet m -> preserves Obs.shapes m.
Proof.
  apply pres_through
    with (g := fun q : DLM.mesh_t * option (list loc) * DLM.reduced_t =>
                 Obs.shapes (DLM.mkState 0 true f0 (fst (fst q)) None None (snd (fst q))
                                         None (snd q) ∅ [])).
  reflexivity.
Qed.

Lemma mesh_of_quiet {A} (m : M DLM.state A) :
  preserves Obs.quiet m -> preserves DLM.mesh m.
Proof. apply pres_through with (g := fun q => fst (fst q)). reflexivity. Qed.

(** *** Writes that keep every size *)

Lemma row_lengths_zeros n k : Obs.row_lengths (Np.zeros (F := F) n k) = replicate n k.
Proof.
  unfold Obs.row_lengths, Np.zeros. induction n as [| n IH]; simpl; [reflexivity |].
  now rewrite length_replicate, IH.
Qed.

Lemma set_col_pure {A} (a : list (list A)) k v (s : DLM.state) :
  snd (Np.set_col a k v s) = s.
Proof. exact (pres_set_col (fun x => x) a k v s). Qed.

Lemma set_col_rows {A} (a : list (list A)) k v (s : DLM.state) a' s' :
  Np.set_col a k v s = (Ok a', s') -> Obs.row_lengths a' = Obs.row_lengths a.
Proof. unfold Np.set_col. apply update_col_rows. Qed.

Lemma shapes_set_Kr_entry i k v : preserves Obs.shapes (DLM.set_Kr_entry i k v).
Proof.
  intros s.
  unfold DLM.set_Kr_entry, DLM.reduced_attr, Np.set2, bind, get, attr, index, ret, raise, modify.
  destruct (DLM.Kr (DLM.reduced s)) as [a |] eqn:EK; [| reflexivity].
  destruct (a !! i) as [row |] eqn:Ei; [| reflexivity].
  destruct (row !! k); [| reflexivity].
  unfold Obs.shapes. simpl. rewrite EK. simpl. unfold Obs.row_lengths.
  rewrite map_insert_same with (x := row); [reflexivity | exact Ei | apply length_insert].
Qed.

Ltac col_tac field :=
  let s := fresh "s" in
  intros s;
  unfold DLM.set_reduced_col, DLM.reduced_attr, bind, get, attr, ret, raise, modify;
  let EA := fresh "EA" in
  destruct (field (DLM.reduced s)) as [a |] eqn:EA; [| reflexivity];
  match goal with
  | |- context [Np.set_col a ?k ?v s] =>
      let Es := fresh "Es" in
      pose proof (set_col_pure a k v s) as Hp;
      destruct (Np.set_col a k v s) as [[a' | e] s1] eqn:Es; simpl in Hp; subst s1;
      [ apply set_col_rows in Es; unfold Obs.shapes; simpl; rewrite EA; simpl; now rewrite Es
      | reflexivity ]
  end.

Lemma shapes_set_vwash k v :
  preserves Obs.shapes (DLM.set_reduced_col "Qm_vwash" DLM.Qm_vwash DLM.set_Qm_vwash k v).
Proof. col_tac (@DLM.Qm_vwash F). Qed.

Lemma shapes_set_dwash k v :
  preserves Obs.shapes (DLM.set_reduced_col "Qm_dwash" DLM.Qm_dwash DLM.set_Qm_dwash k v).
Proof. col_tac (@DLM.Qm_dwash F). Qed.

Lemma shapes_set_modes k v :
  preserves Obs.shapes (DLM.set_reduced_col "Qm_modes" DLM.Qm_modes DLM.set_Qm_modes k v).
Proof. col_tac (@DLM.Qm_modes F). Qed.

#[local] Hint Resolve shapes_of_quiet shapes_set_Kr_entry shapes_set_vwash shapes_set_dwash
  shapes_set_modes : frame.

(** *** The sizes after [build_basis] *)

#[local] Arguments Obs.row_lengths : simpl never.
#[local] Arguments Np.zeros : simpl never.

Lemma after_same {A} (X : Obs.shape_t) (m : M DLM.state A) :
  preserves Obs.shapes m ->
  Obs.after (fun s => Obs.shapes s = X) m (fun _ s => Obs.shapes s = X).
Proof. intros H. apply after_pres with (f := Obs.shapes) (T := fun x => x = X). exact H. Qed.

Lemma read_Qm (X : Obs.shape_t) k :
  Obs.sh_Qm X = Some k ->
  Obs.after (fun s => Obs.shapes s = X) (DLM.reduced_attr "Qm" DLM.Qm)
            (fun q s => Obs.shapes s = X /\ length q = k).
Proof.
  intros HX s q s' Hs E. unfold DLM.reduced_attr, bind, get, attr in E.
  destruct (DLM.Qm (DLM.reduced s)) as [q0 |] eqn:EQ; [| discriminate E].
  injection E as <- <-. split; [exact Hs |].
  rewrite <- Hs in HX. unfold Obs.shapes in HX. simpl in HX. rewrite EQ in HX.
  now injection HX.
Qed.

Ltac shape_set :=
  let s := fresh "s" in
  let Hs := fresh "Hs" in
  intros s Hs; unfold Obs.shapes in Hs |- *; simpl in Hs |- *;
  rewrite ?row_lengths_zeros;
  injection Hs as ? ? ? ? ? ? ? ?; congruence.

Ltac keep X :=
  apply after_bind with (R := fun _ s => Obs.shapes s = X);
  [apply after_same; pres_tac | intros ?].

Lemma build_basis_shapes (m r : nat) (use_modes : bool) l ms (vm : list loc)
    x3 x4 x5 x6 x7 x8 :
  let kk := if use_modes then r else m in
  let k := if use_modes then r else length vm in
  Obs.after (fun s => Obs.shapes s = Obs.mkShape ms (Some vm) x3 x4 x5 x6 x7 x8)
    (DLM.build_basis m r use_modes l)
    (fun _ s => exists n, n <= r /\
       Obs.shapes s = Obs.mkShape ms (Some vm) (Some (replicate kk kk)) (Some k)
                        (Some (replicate (3 * DLM.nnodes ms) k))
                        (Some (replicate (DLM.npanels ms) k))
                        (Some (replicate (DLM.npanels ms) k)) (Some n)).
Proof.
  intros kk k. unfold DLM.build_basis.
  set (X1 := Obs.mkShape ms (Some vm) (Some (replicate kk kk)) (Some k) x5 x6 x7 x8).
  apply after_bind with (R := fun _ s => Obs.shapes s = X1).
  { subst X1 kk k. destruct use_modes.
    - apply after_bind
        with (R := fun _ s => Obs.shapes s = Obs.mkShape ms (Some vm) x3 (Some 0) x5 x6 x7 x8);
        [apply after_modify; shape_set | intros _].
      apply after_bind
        with (R := fun _ s => Obs.shapes s = Obs.mkShape ms (Some vm) x3 (Some r) x5 x6 x7 x8).
      { eapply after_weaken;
          [| | apply after_for_each_next
                 with (I := fun j s =>
                        Obs.shapes s = Obs.mkShape ms (Some vm) x3 (Some j) x5 x6 x7 x8)
                      (n := 0)].
        - auto.
        - intros u s Hs. simpl in Hs. unfold xrange in Hs. now rewrite length_seq in Hs.
        - intros j i ev.
          keep (Obs.mkShape ms (Some vm) x3 (Some j) x5 x6 x7 x8). cbv zeta.
          keep (Obs.mkShape ms (Some vm) x3 (Some j) x5 x6 x7 x8).
          keep (Obs.mkShape ms (Some vm) x3 (Some j) x5 x6 x7 x8).
          intros s u s' Hs E.
          unfold DLM.reduced_attr, bind, get, attr, modify, ret in E.
          destruct (DLM.Qm (DLM.reduced s)) as [q |] eqn:EQ; [| discriminate E].
          injection E as <- <-. split; [| reflexivity].
          unfold Obs.shapes in Hs |- *. simpl in Hs |- *. rewrite EQ in Hs. simpl in Hs.
          injection Hs as E1 E2 E3 E4 E5 E6 E7 E8.
          rewrite length_app, E1, E2, E3, E4, E5, E6, E7, E8. simpl.
          now rewrite Nat.add_1_r. }
      intros _.
      apply after_bind
        with (R := fun _ s => Obs.shapes s
                              = Obs.mkShape ms (Some vm) (Some (replicate r r)) (Some r)
                                            x5 x6 x7 x8);
        [apply after_modify; shape_set | intros _].
      apply after_same. pres_tac.
    - apply after_bind
        with (R := fun _ s => Obs.shapes s
                              = Obs.mkShape ms (Some vm) (Some (replicate m m)) x4 x5 x6 x7 x8);
        [apply after_modify; shape_set | intros _].
      keep (Obs.mkShape ms (Some vm) (Some (replicate m m)) x4 x5 x6 x7 x8).
      intros s u s' Hs E.
      unfold DLM.Vm_list, bind, get, modify in E.
      unfold Obs.shapes in Hs |- *. simpl in Hs.
      injection Hs as E1 E2 E3 E4 E5 E6 E7 E8.
      rewrite E2 in E. injection E as _ <-. simpl.
      now rewrite E1, E2, E3, E5, E6, E7, E8. }
  intros _.
  apply after_bind with (R := fun a s => Obs.shapes s = X1 /\ DLM.mesh a = ms).
  { intros s u s' Hs E. injection E as <- <-. split; [exact Hs |].
    apply (f_equal Obs.sh_mesh) in Hs. exact Hs. }
  intros s0. apply after_pure. intros Hm. cbv zeta. rewrite Hm.
  set (nn := DLM.nnodes ms). set (np := DLM.npanels ms).
  set (X2 := Obs.mkShape ms (Some vm) (Some (replicate kk kk)) (Some k)
                         (Some (replicate (3 * nn) k)) x6 x7 x8).
  set (X3 := Obs.mkShape ms (Some vm) (Some (replicate kk kk)) (Some k)
                         (Some (replicate (3 * nn) k)) (Some (replicate np k)) x7 x8).
  set (X4 := Obs.mkShape ms (Some vm) (Some (replicate kk kk)) (Some k)
                         (Some (replicate (3 * nn) k)) (Some (replicate np k))
                         (Some (replicate np k)) x8).
  apply after_bind with (R := fun q s => Obs.shapes s = X1 /\ length q = k);
    [apply read_Qm; reflexivity
    | intros q; apply after_pure; intros Hq; rewrite Hq].
  apply after_bind with (R := fun _ s => Obs.shapes s = X2);
    [apply after_modify; subst X1 X2; shape_set | intros _].
  apply after_bind with (R := fun q s => Obs.shapes s = X2 /\ length q = k);
    [apply read_Qm; reflexivity
    | intros q'; apply after_pure; intros Hq'; rewrite Hq'].
  apply after_bind with (R := fun _ s => Obs.shapes s = X3);
    [apply after_modify; subst X2 X3; shape_set | intros _].
  apply after_bind with (R := fun q s => Obs.shapes s = X3 /\ length q = k);
    [apply read_Qm; reflexivity
    | intros q''; apply after_pure; intros Hq''; rewrite Hq''].
  apply after_bind with (R := fun _ s => Obs.shapes s = X4);
    [apply after_modify; subst X3 X4; shape_set | intros _].
  keep X4. keep X4.
  intros s u s' Hs E.
  unfold DLM.local, DLM.reduced_attr, DLM.emit, bind, get, attr, modify, ret, raise in E.
  destruct (DLM.l_omega l) as [om |]; [| discriminate E].
  simpl in E. injection E as _ <-.
  exists (length (take r om)). split; [rewrite length_take; lia |].
  subst X4. unfold Obs.shapes in Hs |- *. simpl in Hs |- *.
  injection Hs as E1 E2 E3 E4 E5 E6 E7 E8. congruence.
Qed.

(** *** The reduced model after [setUpSubspace] *)

#[local] Hint Resolve mesh_of_quiet : frame.

Lemma mesh_allocate_subspace m : preserves DLM.mesh (DLM.allocate_subspace m).
Proof. unfold DLM.allocate_subspace. pres_tac. Qed.

(** After the restart loop the vector of frequencies of the last pass
    is what [build_basis] stores. *)
Lemma build_basis_omega m r use_modes l :
  Obs.returns (fun _ s => exists om, DLM.l_omega l = Some om
                                     /\ DLM.omega (DLM.reduced s) = Some (take r om))
              (DLM.build_basis m r use_modes l).
Proof.
  unfold DLM.build_basis. cbv zeta.
  do 10 (apply returns_bind_any; intros ?).
  intros s u s' E.
  unfold DLM.local, DLM.reduced_attr, DLM.emit, bind, get, attr, modify, ret, raise in E.
  destruct (DLM.l_omega l) as [om |]; [| discriminate E].
  simpl in E. injection E as _ <-. exists om. now split.
Qed.

(** A pass of the restart loop that returns has bound [convrg]. *)
Lemma restart_binds_convrg m r tol i l :
  Obs.returns (fun cl _ => exists c, DLM.l_convrg (snd cl) = Some c) (DLM.restart m r tol i l).
Proof.
  unfold DLM.restart. cbv zeta.
  do 7 (apply returns_bind_any; intros ?).
  match goal with
  | |- Obs.returns _ (if ?c then _ else _) => destruct c
  end.
  - apply returns_ret. intros _. now exists true.
  - repeat (apply returns_bind_any; intros ?).
    apply returns_ret. intros _. now exists false.
Qed.

Lemma restart_loop_binds_convrg m r sigma tol max_iters (s : DLM.state) l s' :
  DLM.restart_loop m r sigma tol max_iters s = (Ok l, s') ->
  match max_iters with
  | 0 => l = DLM.mkLocals sigma (Np.zeros (m - 1) (m - 1)) None None
  | S _ => exists c, DLM.l_convrg l = Some c
  end.
Proof.
  unfold DLM.restart_loop. destruct max_iters as [| k]; intros E.
  - now injection E as <- _.
  - unfold xrange in E. simpl seq in E. cbn [for_each] in E. unfold bind at 1 in E.
    destruct (DLM.restart m r tol 0 _ s) as [[[c l1] | e] s1] eqn:E1; [| discriminate E].
    match type of E1 with
    | DLM.restart _ _ _ _ ?l0 _ = _ =>
        pose proof (restart_binds_convrg m r tol 0 l0) as H1
    end.
    specialize (H1 _ _ _ E1). simpl in H1.
    destruct c.
    + pose proof (@returns_for_each_pure DLM.state nat DLM.restart_locals
                    (fun l => exists c, DLM.l_convrg l = Some c)
                    (seq 1 k) (DLM.restart m r tol) l1) as Hloop.
      exact (Hloop (fun x l0 _ => restart_binds_convrg m r tol x l0) H1 _ _ _ E).
    + injection E as <- _. exact H1.
Qed.

(** The reduced model that stands when the construction after the loop
    has returned. *)
Lemma reduced_model_after_build (m r : nat) (sigma tol : F) (max_iters : nat)
    (use_modes : bool) (s s1 s2 s' : DLM.state) (l : DLM.restart_locals) :
  DLM.allocate_subspace m s = (Ok tt, s1) ->
  DLM.restart_loop m r sigma tol max_iters s1 = (Ok l, s2) ->
  DLM.build_basis m r use_modes l s2 = (Ok tt, s') ->
  let k := if use_modes then r else Nat.max (length (Obs.lanczos_vectors s)) m in
  let kk := if use_modes then r else m in
  let nn := DLM.nnodes (DLM.mesh s) in
  let np := DLM.npanels (DLM.mesh s) in
  exists kr qm modes vwash dwash om,
    DLM.reduced s'
    = DLM.mkReduced (Some kr) (Some qm) (Some modes) (Some vwash) (Some dwash)
                    (Some (take r om))
    /\ DLM.l_omega l = Some om
    /\ Obs.row_lengths kr = replicate kk kk
    /\ length qm = k
    /\ Obs.row_lengths modes = replicate (3 * nn) k
    /\ Obs.row_lengths vwash = replicate np k
    /\ Obs.row_lengths dwash = replicate np k
    /\ DLM.mesh s' = DLM.mesh s.
Proof.
  intros Ea Er E k kk nn np.
  destruct (@allocate_subspace_vectors _ _ _ _ m _ s tt s1 eq_refl Ea) as (vm & EV & Hl).
  pose proof (mesh_allocate_subspace m s) as Hm1. rewrite Ea in Hm1. simpl in Hm1.
  pose proof (quiet_restart_loop m r sigma tol max_iters s1) as Hq.
  rewrite Er in Hq. simpl in Hq. unfold Obs.quiet in Hq. injection Hq as Hq1 Hq2 Hq3.
  assert (Hs2 : Obs.shapes s2
                = Obs.mkShape (DLM.mesh s) (Some vm)
                    (Obs.sh_Kr (Obs.shapes s2)) (Obs.sh_Qm (Obs.shapes s2))
                    (Obs.sh_modes (Obs.shapes s2)) (Obs.sh_vwash (Obs.shapes s2))
                    (Obs.sh_dwash (Obs.shapes s2)) (Obs.sh_omega (Obs.shapes s2))).
  { unfold Obs.shapes. simpl. now rewrite Hq1, Hq2, Hm1, EV. }
  pose proof (@build_basis_shapes m r use_modes l (DLM.mesh s) vm) as Hb.
  cbv zeta in Hb.
  destruct (Hb _ _ _ _ _ _ s2 tt s' Hs2 E) as (n & Hn & Hsh).
  pose proof (build_basis_omega m r use_modes l) as Ho.
  destruct (Ho _ _ _ E) as (om0 & Eom & Eo). clear Ho.
  unfold Obs.shapes in Hsh.
  destruct (DLM.reduced s') as [okr oqm omo ovw odw oom].
  simpl in Hsh, Eo. injection Hsh as H1 H2 H3 H4 H5 H6 H7 H8.
  destruct okr as [kr |]; [| discriminate H3].
  destruct oqm as [qm |]; [| discriminate H4].
  destruct omo as [mo |]; [| discriminate H5].
  destruct ovw as [vw |]; [| discriminate H6].
  destruct odw as [dw |]; [| discriminate H7].
  simpl in H3, H4, H5, H6, H7.
  injection H3 as H3. injection H4 as H4. injection H5 as H5. injection H6 as H6.
  injection H7 as H7.
  assert (Hk : (if use_modes then r else length vm) = k).
  { subst k. destruct use_modes; [reflexivity | exact Hl]. }
  rewrite Hk in *.
  exists kr, qm, mo, vw, dw, om0. rewrite Eo.
  split; [reflexivity |]. repeat split; assumption.
Qed.


End SubspaceShape.


